(** * A shallow embedding of [regex.py]

    The Python module compiles a pattern (literals, [.], postfix [*] and [+])
    into a graph of state objects and decides full-string matches by
    simulating that graph with sets of active states.

    Python objects are compared and hashed by identity, so the embedding keeps
    the objects in an arena: a state is known by the index at which it was
    allocated, [next_states] and [loop_state] hold indices, and a Python [set]
    of states is a [gset nat].  The order in which Python iterates over such a
    set is not specified; the simulator is therefore parameterised by an
    arbitrary enumeration order [order].

    Characters are [ascii] values and strings are [string]s; the code only
    ever compares characters for equality, against each other and against
    the three characters [.], [*] and [+]. *)

From Stdlib Require Import Ascii String.
From stdpp Require Import base option list sets gmap strings.

Local Open Scope list_scope.

(** ** States *)

(** The concrete subclasses of [State]. *)
Inductive Kind : Type :=
  | StartState
  | TerminationState
  | AsciiState (char : ascii)
  | DotState
  | StarState
  | PlusState.

#[global] Instance Kind_eq_dec : EqDecision Kind.
Proof. solve_decision. Defined.

(** A state object: its class, the list filled by [add_next], and the
    [loop_state] attribute ([None] until the builder assigns it; only
    [StarState] and [PlusState] carry the attribute in Python, and the code
    only reads it behind an [isinstance] test). *)
Record State : Type := mkState {
  kind : Kind;
  next_states : list nat;
  loop_state : option nat
}.

(** [check_self], dispatched on the class. *)
Definition check_self (st : State) (char : ascii) : bool :=
  match kind st with
  | StartState => false
  | TerminationState => false
  | AsciiState c => bool_decide (char = c)
  | DotState => true
  | StarState => false
  | PlusState => false
  end.

(** ** The arena of allocated objects *)

Abbreviation heap := (list State).

(** A constructor call: the new object gets the next free index, an empty
    [next_states] and, for the quantifier classes, [loop_state = None]. *)
Definition new_state (k : Kind) (h : heap) : nat * heap :=
  (length h, h ++ [mkState k [] None]).

(** [src.add_next(dst)]: append to the list of [src]. *)
Definition add_next (src dst : nat) (h : heap) : heap :=
  alter (λ st, mkState (kind st) (next_states st ++ [dst]) (loop_state st)) src h.

(** [q.loop_state = atom]. *)
Definition set_loop_state (q atom : nat) (h : heap) : heap :=
  alter (λ st, mkState (kind st) (next_states st) (Some atom)) q h.

(** Readers that are total on the arena; an index that was never allocated
    (which no Python reference can be) reads as an inert object. *)
Definition kind_of (h : heap) (q : nat) : option Kind := kind <$> h !! q.

Definition next_of (h : heap) (q : nat) : list nat :=
  match h !! q with Some st => next_states st | None => [] end.

Definition loop_of (h : heap) (q : nat) : option nat :=
  match h !! q with Some st => loop_state st | None => None end.

Definition check_self_at (h : heap) (q : nat) (char : ascii) : bool :=
  match h !! q with Some st => check_self st char | None => false end.

(** ** The builder, [RegexFSM.__init__] *)

Record RegexFSM : Type := mkRegexFSM {
  fsm_heap : heap;
  start_state : nat;
  term_state : nat
}.

(** [pattern[i+1] in ('*', '+')] *)
Definition is_quantifier (c : ascii) : bool :=
  bool_decide (c = "*"%char) || bool_decide (c = "+"%char).

(** Lines 85-88: the atom for the character [c]. *)
Definition new_atom (c : ascii) (h : heap) : nat * heap :=
  if bool_decide (c = "."%char) then new_state DotState h
  else new_state (AsciiState c) h.

(** Lines 92-104: the atom [c] followed by the quantifier [quant]; returns
    the new [prev]. *)
Definition quantified_atom (c quant : ascii) (prev : nat) (h : heap) : nat * heap :=
  let '(state, h) := new_atom c h in
  if bool_decide (quant = "*"%char) then
    let '(star, h) := new_state StarState h in
    let h := add_next prev state h in
    let h := add_next state star h in
    let h := set_loop_state star state h in
    let h := add_next prev star h in
    (star, h)
  else
    let '(plus, h) := new_state PlusState h in
    let h := add_next prev state h in
    let h := add_next state plus h in
    let h := set_loop_state plus state h in
    (plus, h).

(** Lines 106-107: an atom without quantifier. *)
Definition plain_atom (c : ascii) (prev : nat) (h : heap) : nat * heap :=
  let '(state, h) := new_atom c h in
  (state, add_next prev state h).

(** The [while] loop of lines 83-108, written over the unread suffix
    [pattern[i:]]: an iteration reads its first character, looks one character
    ahead, and continues with [pattern[i+2:]] or [pattern[i+1:]]. *)
Fixpoint init_loop (pattern : list ascii) (prev : nat) (h : heap) : nat * heap :=
  match pattern with
  | [] => (prev, h)
  | c :: rest =>
      match rest with
      | quant :: rest' =>
          if is_quantifier quant then
            let '(prev, h) := quantified_atom c quant prev h in
            init_loop rest' prev h
          else
            let '(prev, h) := plain_atom c prev h in
            init_loop rest prev h
      | [] =>
          let '(prev, h) := plain_atom c prev h in
          init_loop rest prev h
      end
  end.

Definition init_chars (pattern : list ascii) : RegexFSM :=
  let '(start, h) := new_state StartState [] in
  let '(term, h) := new_state TerminationState h in
  let '(prev, h) := init_loop pattern start h in
  mkRegexFSM (add_next prev term h) start term.

Definition RegexFSM_init (pattern : string) : RegexFSM :=
  init_chars (list_ascii_of_string pattern).

(** The same loop with the index [i] of the source and an explicit bound on
    the number of iterations; [init_while_init_loop] below shows that
    [length pattern] iterations always reach the exit test and that the two
    presentations build the same arena. *)
Fixpoint init_while (fuel : nat) (pattern : list ascii) (i prev : nat) (h : heap)
  : option (nat * heap) :=
  if decide (i < length pattern) then
    match fuel with
    | 0 => None
    | S fuel =>
        match pattern !! i with
        | None => None
        | Some c =>
            match pattern !! (i + 1) with
            | Some quant =>
                if is_quantifier quant then
                  let '(prev, h) := quantified_atom c quant prev h in
                  init_while fuel pattern (i + 2) prev h
                else
                  let '(prev, h) := plain_atom c prev h in
                  init_while fuel pattern (i + 1) prev h
            | None =>
                let '(prev, h) := plain_atom c prev h in
                init_while fuel pattern (i + 1) prev h
            end
        end
    end
  else Some (prev, h).

(** ** Outcomes of the simulator *)

(** A call either returns, raises the [AttributeError] of
    [None.check_self], or exhausts the iteration bound of the embedding. *)
Inductive outcome (A : Type) : Type :=
  | Ret (a : A)
  | AttributeError
  | OutOfFuel.
Arguments Ret {A} a.
Arguments AttributeError {A}.
Arguments OutOfFuel {A}.

#[global] Instance outcome_ret : MRet outcome := λ A a, Ret a.
#[global] Instance outcome_bind : MBind outcome := λ A B f m,
  match m with
  | Ret a => f a
  | AttributeError => AttributeError
  | OutOfFuel => OutOfFuel
  end.

(** A [for] loop whose body may raise. *)
Fixpoint for_each {A B : Type} (body : B → A → outcome B) (l : list A) (acc : B)
  : outcome B :=
  match l with
  | [] => Ret acc
  | x :: l => acc ← body acc x; for_each body l acc
  end.

(** ** The simulator, [RegexFSM.check_string] *)

(** [isinstance(st, (StartState, StarState, PlusState))] *)
Definition is_epsilon_kind (k : Kind) : bool :=
  match k with
  | StartState | StarState | PlusState => true
  | _ => false
  end.

Definition is_epsilon (h : heap) (q : nat) : bool :=
  match h !! q with Some st => is_epsilon_kind (kind st) | None => false end.

(** The variables of [closure]: the stack (its top is the head of the list),
    the result set, and a ghost record of every state that was ever put on the
    stack, in order. *)
Record closure_vars : Type := mkClosure {
  stack : list nat;
  result : gset nat;
  pushed : list nat
}.

(** Lines 120-122. *)
Definition visit (cv : closure_vars) (nxt : nat) : closure_vars :=
  if decide (nxt ∈ result cv) then cv
  else mkClosure (nxt :: stack cv) ({[nxt]} ∪ result cv) (pushed cv ++ [nxt]).

(** Lines 117-122: one iteration of [while stack], for the popped [st]. *)
Definition closure_body (h : heap) (st : nat) (cv : closure_vars) : closure_vars :=
  if is_epsilon h st then foldl visit cv (next_of h st) else cv.

Fixpoint closure_while (fuel : nat) (h : heap) (cv : closure_vars)
  : outcome closure_vars :=
  match stack cv with
  | [] => Ret cv
  | st :: stk =>
      match fuel with
      | 0 => OutOfFuel
      | S fuel =>
          closure_while fuel h
            (closure_body h st (mkClosure stk (result cv) (pushed cv)))
      end
  end.

Section Simulator.

(** The iteration order of a Python set: any enumeration of its elements. *)
Variable order : gset nat → list nat.

(** Bound on the iterations of each [while stack] loop. *)
Variable fuel : nat.

(** Lines 114-115: [stack = list(states)], [result = set(states)];
    [stack.pop()] takes the last element of the list. *)
Definition closure_start (states : gset nat) : closure_vars :=
  mkClosure (reverse (order states)) states (order states).

Definition closure_run (h : heap) (states : gset nat) : outcome closure_vars :=
  closure_while fuel h (closure_start states).

Definition closure (h : heap) (states : gset nat) : outcome (gset nat) :=
  cv ← closure_run h states; mret (result cv).

(** [st.loop_state.check_self(ch)] *)
Definition loop_check (h : heap) (st : State) (ch : ascii) : outcome bool :=
  match loop_state st with
  | None => AttributeError
  | Some atom => Ret (check_self_at h atom ch)
  end.

(** Lines 132-138: the body of [for st in active]. *)
Definition step_state (h : heap) (ch : ascii) (next_active : gset nat) (q : nat)
  : outcome (gset nat) :=
  match h !! q with
  | None => Ret next_active
  | Some st =>
      let next_active :=
        if check_self st ch
        then foldl (λ acc nxt, {[nxt]} ∪ acc) next_active (next_states st)
        else next_active in
      next_active ←
        (if bool_decide (kind st = StarState) then
           b ← loop_check h st ch;
           mret (if b : bool then {[q]} ∪ next_active else next_active)
         else mret next_active);
      if bool_decide (kind st = PlusState) then
        b ← loop_check h st ch;
        mret (if b : bool then {[q]} ∪ next_active else next_active)
      else mret next_active
  end.

(** Lines 130-139: the body of [for ch in s]. *)
Definition step (h : heap) (active : gset nat) (ch : ascii) : outcome (gset nat) :=
  next_active ← for_each (step_state h ch) (order active) ∅;
  closure h next_active.

Definition check_chars (fsm : RegexFSM) (s : list ascii) : outcome bool :=
  let h := fsm_heap fsm in
  active ← closure h {[start_state fsm]};
  let active :=
    if decide (start_state fsm ∈ active) then active ∖ {[start_state fsm]}
    else active in
  active ← for_each (step h) s active;
  active ← closure h active;
  mret (bool_decide (term_state fsm ∈ active)).

Definition check_string (fsm : RegexFSM) (s : string) : outcome bool :=
  check_chars fsm (list_ascii_of_string s).

End Simulator.

(** ** The transition and epsilon rules of the automaton *)

(** [move h q (Some ch) n]: in state [q], reading [ch] leads to [n];
    [move h q None n]: [n] follows [q] without reading a character. *)
Inductive move (h : heap) : nat → option ascii → nat → Prop :=
  | move_eps q n :
      is_epsilon h q = true → n ∈ next_of h q → move h q None n
  | move_char q ch n :
      check_self_at h q ch = true → n ∈ next_of h q → move h q (Some ch) n
  | move_loop q atom ch :
      kind_of h q = Some StarState ∨ kind_of h q = Some PlusState →
      loop_of h q = Some atom →
      check_self_at h atom ch = true →
      move h q (Some ch) q.

(** [drives h q s q']: the string [s], read in full, leads from [q] to [q']. *)
Inductive drives (h : heap) : nat → list ascii → nat → Prop :=
  | drives_nil q : drives h q [] q
  | drives_eps q n s q' :
      move h q None n → drives h n s q' → drives h q s q'
  | drives_char q ch n s q' :
      move h q (Some ch) n → drives h n s q' → drives h q (ch :: s) q'.

Definition accepts (fsm : RegexFSM) (s : list ascii) : Prop :=
  drives (fsm_heap fsm) (start_state fsm) s (term_state fsm).

Definition eps_edge (h : heap) (q n : nat) : Prop := move h q None n.

(** The states reachable from a set by epsilon moves only. *)
Definition eps_reach (h : heap) (states : gset nat) (x : nat) : Prop :=
  ∃ q, q ∈ states ∧ rtc (eps_edge h) q x.

(** Reading one character and then following epsilon moves, repeated along a
    string: the shape in which the simulator follows a path. *)
Inductive csteps (h : heap) : nat → list ascii → nat → Prop :=
  | csteps_nil q : csteps h q [] q
  | csteps_cons q ch n m s x :
      move h q (Some ch) n → rtc (eps_edge h) n m → csteps h m s x →
      csteps h q (ch :: s) x.

(** ** Well-formed automata *)

(** The indices of the allocated objects. *)
Definition allocated (h : heap) : gset nat := set_seq 0 (length h).

Record heap_closed (h : heap) : Prop := {
  next_allocated : ∀ q st n,
    h !! q = Some st → n ∈ next_states st → n < length h;
  loop_assigned : ∀ q st,
    h !! q = Some st → kind st = StarState ∨ kind st = PlusState →
    is_Some (loop_state st)
}.

Record fsm_wf (fsm : RegexFSM) : Prop := {
  wf_closed : heap_closed (fsm_heap fsm);
  wf_start : kind_of (fsm_heap fsm) (start_state fsm) = Some StartState;
  wf_term : kind_of (fsm_heap fsm) (term_state fsm) = Some TerminationState
}.

(** ** Invariants of the worklist loop *)

(** What the loop maintains, for the seed set [S0] it was started on. *)
Record closure_inv (h : heap) (S0 : gset nat) (cv : closure_vars) : Prop := {
  inv_seed : S0 ⊆ result cv;
  inv_stack : ∀ x, x ∈ stack cv → x ∈ result cv;
  inv_sound : ∀ x, x ∈ result cv → eps_reach h S0 x;
  inv_done : ∀ x n,
    x ∈ result cv → x ∉ stack cv → eps_edge h x n → n ∈ result cv;
  inv_pushed : ∀ x, x ∈ pushed cv ↔ x ∈ result cv;
  inv_once : NoDup (pushed cv)
}.

(** The quantity that every iteration decreases by one. *)
Definition closure_measure (h : heap) (cv : closure_vars) : nat :=
  length (stack cv) + size (allocated h ∖ result cv).

(** ** The pattern as the builder reads it *)

Inductive quantifier : Type := QNone | QStar | QPlus.

(** An atom character together with the quantifier the loop found behind
    it. *)
Record token : Type := mkToken { tok_char : ascii; tok_quant : quantifier }.

(** The sequence of iterations of the [while] loop: which character each
    iteration takes as its atom and which quantifier, if any, it consumes
    with it. *)
Fixpoint tokenize (pattern : list ascii) : list token :=
  match pattern with
  | [] => []
  | c :: rest =>
      match rest with
      | quant :: rest' =>
          if is_quantifier quant then
            mkToken c (if bool_decide (quant = "*"%char) then QStar else QPlus)
              :: tokenize rest'
          else mkToken c QNone :: tokenize rest
      | [] => mkToken c QNone :: tokenize rest
      end
  end.

(** The class of the state created for the character [c]. *)
Definition atom_kind (c : ascii) : Kind :=
  if bool_decide (c = "."%char) then DotState else AsciiState c.

(** Whether that state accepts [ch]. *)
Definition atom_matches (c ch : ascii) : bool :=
  bool_decide (c = "."%char) || bool_decide (ch = c).

(** The three shapes a pattern can have at the head of the loop. *)
Definition no_quantifier_ahead (rest : list ascii) : Prop :=
  match rest with
  | quant :: _ => is_quantifier quant = false
  | [] => True
  end.

Inductive loop_view : list ascii → Prop :=
  | view_done : loop_view []
  | view_quantified c quant rest :
      is_quantifier quant = true → loop_view rest →
      loop_view (c :: quant :: rest)
  | view_plain c rest :
      no_quantifier_ahead rest → loop_view rest → loop_view (c :: rest).

(** ** The arena in closed form *)

(** [link dsts st] is [st] after [st.add_next(d)] for each [d] of [dsts]. *)
Definition link (dsts : list nat) (st : State) : State :=
  mkState (kind st) (next_states st ++ dsts) (loop_state st).

(** The states that the predecessor of the token sequence [ts] is linked to,
    when the first state of [ts] is allocated at [base]. *)
Definition entry (term : nat) (ts : list token) (base : nat) : list nat :=
  match ts with
  | [] => [term]
  | t :: _ =>
      match tok_quant t with
      | QStar => [base; S base]
      | _ => [base]
      end
  end.

(** The states allocated for [ts] from index [base] on, as they are once
    construction has finished. *)
Fixpoint layout (term : nat) (ts : list token) (base : nat) : list State :=
  match ts with
  | [] => []
  | t :: ts' =>
      match tok_quant t with
      | QNone =>
          mkState (atom_kind (tok_char t)) (entry term ts' (S base)) None
            :: layout term ts' (S base)
      | QStar =>
          mkState (atom_kind (tok_char t)) [S base] None
            :: mkState StarState (entry term ts' (S (S base))) (Some base)
            :: layout term ts' (S (S base))
      | QPlus =>
          mkState (atom_kind (tok_char t)) [S base] None
            :: mkState PlusState (entry term ts' (S (S base))) (Some base)
            :: layout term ts' (S (S base))
      end
  end.

(** The rest of [__init__] from a point inside the loop: the remaining
    iterations and line 109. *)
Definition build_rest (term : nat) (pattern : list ascii) (prev : nat) (h : heap)
  : heap :=
  let '(prev, h) := init_loop pattern prev h in add_next prev term h.

(** ** A reference matcher on the token sequence *)

(** [star_match c k s]: some number of characters accepted by the atom [c],
    followed by a string accepted by [k]. *)
Fixpoint star_match (c : ascii) (k : list ascii → bool) (s : list ascii) : bool :=
  k s ||
  match s with
  | ch :: s' => atom_matches c ch && star_match c k s'
  | [] => false
  end.

Fixpoint matches (ts : list token) (s : list ascii) : bool :=
  match ts with
  | [] => match s with [] => true | _ :: _ => false end
  | t :: ts' =>
      match tok_quant t with
      | QNone =>
          match s with
          | ch :: s' => atom_matches (tok_char t) ch && matches ts' s'
          | [] => false
          end
      | QStar => star_match (tok_char t) (matches ts') s
      | QPlus =>
          match s with
          | ch :: s' =>
              atom_matches (tok_char t) ch
              && star_match (tok_char t) (matches ts') s'
          | [] => false
          end
      end
  end.

(** ** Transitions as a graph *)

(** [edge h a b]: [b] is in [a.next_states]. *)
Definition edge (h : heap) (a b : nat) : Prop := b ∈ next_of h a.

(** A pattern without the characters [*] and [+]. *)
Definition quantifier_free (pattern : string) : Prop :=
  Forall (λ c, is_quantifier c = false) (list_ascii_of_string pattern).

(** What one quantified iteration leaves behind, for the quantifier state
    class [qk] and the transitions [dsts] added to [prev]. *)
Definition quantified_result (c : ascii) (qk : Kind) (dsts : list nat)
    (prev : nat) (h : heap) (r : nat * heap) : Prop :=
  let atom := length h in
  let quant := S (length h) in
  r.1 = quant ∧
  length r.2 = length h + 2 ∧
  kind_of r.2 atom = Some (atom_kind c) ∧
  kind_of r.2 quant = Some qk ∧
  next_of r.2 prev = next_of h prev ++ dsts ∧
  next_of r.2 atom = [quant] ∧
  next_of r.2 quant = [] ∧
  loop_of r.2 quant = Some atom ∧
  kind_of r.2 prev = kind_of h prev ∧
  loop_of r.2 prev = loop_of h prev ∧
  (∀ q, q < length h → q ≠ prev → r.2 !! q = h !! q).

(** ** The language of a token sequence *)

(** The strings one token stands for: characters its atom accepts, exactly
    one of them without quantifier, any number behind [*], at least one
    behind [+]. *)
Definition token_accepts (t : token) (part : list ascii) : Prop :=
  Forall (λ ch, atom_matches (tok_char t) ch = true) part ∧
  match tok_quant t with
  | QNone => length part = 1
  | QStar => True
  | QPlus => 1 ≤ length part
  end.

(** [s] is cut into one part per token. *)
Definition splits (ts : list token) (s : list ascii) : Prop :=
  ∃ parts, Forall2 token_accepts ts parts ∧ s = concat parts.

(** The atoms that must occur at least once. *)
Fixpoint mandatory_atoms (ts : list token) : nat :=
  match ts with
  | [] => 0
  | t :: ts' =>
      match tok_quant t with
      | QStar => mandatory_atoms ts'
      | _ => S (mandatory_atoms ts')
      end
  end.

(** Lines 145-149: the four calls of the self-test, in order. *)
Definition self_test (order : gset nat → list nat) (fuel : nat)
  : list (outcome bool) :=
  let regex_compiled := RegexFSM_init "a*4.+hi" in
  [check_string order fuel regex_compiled "aaaaaa4uhi";
   check_string order fuel regex_compiled "4uhi";
   check_string order fuel regex_compiled "meow";
   check_string order fuel regex_compiled "a4/hi"].

(** * Properties *)

(** ** Reading the arena after an update *)

Lemma elem_of_allocated h q : q ∈ allocated h ↔ q < length h.
Proof. unfold allocated. rewrite elem_of_set_seq. lia. Qed.

Lemma size_allocated h : size (allocated h) = length h.
Proof. apply size_set_seq. Qed.

Lemma length_new_state k h : length (new_state k h).2 = S (length h).
Proof. simpl. rewrite length_app. simpl. lia. Qed.

Lemma lookup_new_state_old k h q :
  q < length h → (new_state k h).2 !! q = h !! q.
Proof. intros. simpl. by rewrite lookup_app_l. Qed.

Lemma lookup_new_state_new k h :
  (new_state k h).2 !! (length h) = Some (mkState k [] None).
Proof. simpl. by rewrite list_lookup_middle. Qed.

Lemma length_add_next src dst h : length (add_next src dst h) = length h.
Proof. apply length_alter. Qed.

Lemma length_set_loop_state q a h : length (set_loop_state q a h) = length h.
Proof. apply length_alter. Qed.

Lemma lookup_add_next_ne src dst h q :
  src ≠ q → add_next src dst h !! q = h !! q.
Proof. intros. by apply list_lookup_alter_ne. Qed.

Lemma lookup_add_next_eq src dst h st :
  h !! src = Some st →
  add_next src dst h !! src
  = Some (mkState (kind st) (next_states st ++ [dst]) (loop_state st)).
Proof. intros H. unfold add_next. by rewrite list_lookup_alter_eq, H. Qed.

Lemma lookup_set_loop_state_ne q a h q' :
  q ≠ q' → set_loop_state q a h !! q' = h !! q'.
Proof. intros. by apply list_lookup_alter_ne. Qed.

Lemma lookup_set_loop_state_eq q a h st :
  h !! q = Some st →
  set_loop_state q a h !! q = Some (mkState (kind st) (next_states st) (Some a)).
Proof. intros H. unfold set_loop_state. by rewrite list_lookup_alter_eq, H. Qed.

(** ** Epsilon moves *)

Lemma eps_edge_allocated h q n :
  heap_closed h → eps_edge h q n → n < length h.
Proof.
  intros Hc Hm. inversion Hm as [q0 n0 _ Hn| |]; subst.
  unfold next_of in Hn. destruct (h !! q) as [st|] eqn:E.
  - eapply next_allocated; eauto.
  - by apply elem_of_nil in Hn.
Qed.

Lemma move_allocated h q ch n :
  heap_closed h → q < length h → move h q (Some ch) n → n < length h.
Proof.
  intros Hc Hq Hm. inversion Hm as [|q0 ch0 n0 _ Hn|]; subst; [|done].
  unfold next_of in Hn. destruct (h !! q) as [st|] eqn:E.
  - eapply next_allocated; eauto.
  - by apply elem_of_nil in Hn.
Qed.

Lemma eps_reach_allocated h (S0 : gset nat) x :
  heap_closed h → S0 ⊆ allocated h → eps_reach h S0 x → x < length h.
Proof.
  intros Hc HS (q & Hq & Hr).
  assert (q < length h) as Hlt by (apply elem_of_allocated; set_solver).
  clear Hq. induction Hr as [|a b c Hab _ IH]; [done|].
  apply IH. eapply eps_edge_allocated; eauto.
Qed.

(** ** The worklist loop of [closure] *)

Lemma result_foldl_visit cv l :
  result (foldl visit cv l) = result cv ∪ list_to_set l.
Proof.
  revert cv. induction l as [|n l IH]; intros cv; simpl.
  - set_solver.
  - rewrite IH. unfold visit. case_decide; simpl; set_solver.
Qed.

Lemma stack_foldl_visit cv l x :
  x ∈ stack (foldl visit cv l) ↔ x ∈ stack cv ∨ (x ∈ l ∧ x ∉ result cv).
Proof.
  revert cv. induction l as [|n l IH]; intros cv; simpl.
  - set_solver.
  - rewrite IH. unfold visit. case_decide; simpl.
    + set_solver.
    + rewrite !elem_of_cons. destruct (decide (x = n)); set_solver.
Qed.

Lemma pushed_foldl_visit cv l x :
  x ∈ pushed (foldl visit cv l) ↔ x ∈ pushed cv ∨ (x ∈ l ∧ x ∉ result cv).
Proof.
  revert cv. induction l as [|n l IH]; intros cv; simpl.
  - set_solver.
  - rewrite IH. unfold visit. case_decide; simpl.
    + set_solver.
    + rewrite elem_of_app, !elem_of_cons.
      destruct (decide (x = n)); set_solver.
Qed.

Lemma NoDup_foldl_visit cv l :
  (∀ x, x ∈ pushed cv → x ∈ result cv) →
  NoDup (pushed cv) → NoDup (pushed (foldl visit cv l)).
Proof.
  revert cv. induction l as [|n l IH]; intros cv Hsub Hnd; simpl; [done|].
  apply IH; unfold visit; case_decide; simpl; try done.
  - intros x. rewrite elem_of_app, list_elem_of_singleton. set_solver.
  - apply NoDup_app. split_and!; [done| |apply NoDup_singleton].
    intros x Hx. rewrite list_elem_of_singleton. intros ->. auto.
Qed.

Lemma measure_visit h cv n :
  n < length h → closure_measure h (visit cv n) = closure_measure h cv.
Proof.
  intros Hn. unfold visit, closure_measure. case_decide as Hin; [done|]. simpl.
  assert (allocated h ∖ result cv
          = {[n]} ∪ allocated h ∖ ({[n]} ∪ result cv)) as ->.
  { apply set_eq. intros x. rewrite elem_of_union, !elem_of_difference,
      elem_of_union, elem_of_singleton, elem_of_allocated.
    destruct (decide (x = n)) as [->|]; naive_solver. }
  rewrite (size_union {[n]} (allocated h ∖ ({[n]} ∪ result cv))) by set_solver.
  rewrite size_singleton. lia.
Qed.

Lemma measure_foldl_visit h cv l :
  (∀ n, n ∈ l → n < length h) →
  closure_measure h (foldl visit cv l) = closure_measure h cv.
Proof.
  revert cv. induction l as [|n l IH]; intros cv Hl; simpl; [done|].
  rewrite IH by (intros; apply Hl; set_solver).
  apply measure_visit, Hl. set_solver.
Qed.

Lemma next_of_allocated h q n :
  heap_closed h → n ∈ next_of h q → n < length h.
Proof.
  intros Hc Hn. unfold next_of in Hn. destruct (h !! q) as [st|] eqn:E.
  - eapply next_allocated; eauto.
  - by apply elem_of_nil in Hn.
Qed.

Lemma measure_closure_body h st cv :
  heap_closed h →
  closure_measure h (closure_body h st cv) = closure_measure h cv.
Proof.
  intros Hc. unfold closure_body. destruct (is_epsilon h st); [|done].
  apply measure_foldl_visit. intros n. by apply next_of_allocated.
Qed.

Lemma closure_while_terminates h fuel cv :
  heap_closed h → closure_measure h cv ≤ fuel →
  ∃ cv', closure_while fuel h cv = Ret cv'.
Proof.
  intros Hc. revert cv. induction fuel as [|fuel IH]; intros cv Hm.
  - destruct cv as [[|st stk] res log]; simpl; [eauto|].
    unfold closure_measure in Hm. simpl in Hm. lia.
  - destruct cv as [[|st stk] res log]; simpl; [eauto|].
    apply IH. rewrite measure_closure_body by done.
    unfold closure_measure in *. simpl in *. lia.
Qed.

Lemma closure_body_inv h S0 st stk res log :
  closure_inv h S0 (mkClosure (st :: stk) res log) →
  closure_inv h S0 (closure_body h st (mkClosure stk res log)).
Proof.
  intros [Hseed Hstack Hsound Hdone Hpushed Honce]. simpl in *.
  unfold closure_body. destruct (is_epsilon h st) eqn:Heps.
  - split.
    + rewrite result_foldl_visit. set_solver.
    + intros x. rewrite stack_foldl_visit, result_foldl_visit. simpl.
      intros [Hx|[Hx _]]; [|set_solver].
      apply elem_of_union_l, Hstack. set_solver.
    + intros x. rewrite result_foldl_visit, elem_of_union, elem_of_list_to_set.
      simpl. intros [Hx|Hx]; [by apply Hsound|].
      destruct (Hsound st) as (q & Hq & Hr); [apply Hstack; set_solver|].
      exists q. split; [done|]. eapply rtc_r; [done|]. by constructor.
    + intros x n. rewrite !result_foldl_visit, stack_foldl_visit. simpl.
      rewrite !elem_of_union, !elem_of_list_to_set.
      intros Hx Hnot Hedge.
      destruct (decide (x ∈ res)) as [Hin|Hnin]; [|naive_solver].
      destruct (decide (x = st)) as [->|Hne].
      * right. by inversion Hedge.
      * left. apply (Hdone x); [done| |done]. set_solver.
    + intros x. rewrite pushed_foldl_visit, result_foldl_visit. simpl.
      rewrite elem_of_union, elem_of_list_to_set, Hpushed.
      destruct (decide (x ∈ res)); naive_solver.
    + apply NoDup_foldl_visit; simpl; [|done]. intros x. by rewrite Hpushed.
  - split; simpl; try done.
    + intros x Hx. apply Hstack. set_solver.
    + intros x n Hx Hnot Hedge. destruct (decide (x = st)) as [->|Hne].
      * inversion Hedge; congruence.
      * apply (Hdone x); [done| |done]. set_solver.
Qed.

Lemma closure_while_inv h S0 fuel cv cv' :
  closure_while fuel h cv = Ret cv' →
  closure_inv h S0 cv → closure_inv h S0 cv' ∧ stack cv' = [].
Proof.
  revert cv. induction fuel as [|fuel IH]; intros [[|st stk] res log];
    simpl; try done.
  - by intros [= <-].
  - by intros [= <-].
  - intros Hrun Hinv. eapply IH; [done|]. by apply closure_body_inv.
Qed.

(** ** Paths and their normal form *)

Lemma kind_of_Some h q st k :
  h !! q = Some st → kind_of h q = Some k ↔ kind st = k.
Proof. intros H. unfold kind_of. rewrite H. simpl. naive_solver. Qed.

Lemma move_char_inv h q ch x :
  move h q (Some ch) x ↔
    (check_self_at h q ch = true ∧ x ∈ next_of h q) ∨
    (x = q ∧ (kind_of h q = Some StarState ∨ kind_of h q = Some PlusState) ∧
     ∃ atom, loop_of h q = Some atom ∧ check_self_at h atom ch = true).
Proof.
  split.
  - inversion 1; subst; eauto 10.
  - intros [[? ?]|(-> & ? & atom & ? & ?)].
    + by apply move_char.
    + by eapply move_loop.
Qed.

Lemma drives_rtc h q q' s x :
  rtc (eps_edge h) q q' → drives h q' s x → drives h q s x.
Proof.
  induction 1 as [|a b c Hab _ IH]; [done|].
  intros Hd. eapply drives_eps; [exact Hab|]. by apply IH.
Qed.

Lemma csteps_drives h q s x q' :
  csteps h q s x → rtc (eps_edge h) x q' → drives h q s q'.
Proof.
  induction 1 as [q|q ch n m s x Hm Hr _ IH]; intros Hx.
  - eapply drives_rtc; [done|]. constructor.
  - eapply drives_char; [done|]. eapply drives_rtc; [done|]. by apply IH.
Qed.

Lemma drives_normal_form h q s q' :
  drives h q s q' ↔
  ∃ q0 x, rtc (eps_edge h) q q0 ∧ csteps h q0 s x ∧ rtc (eps_edge h) x q'.
Proof.
  split.
  - induction 1 as [q|q n s q' Hm _ IH|q ch n s q' Hm _ IH].
    + exists q, q. split_and!; [done|constructor|done].
    + destruct IH as (q0 & x & Hr & Hc & Hx).
      exists q0, x. split_and!; [|done|done]. by eapply rtc_l.
    + destruct IH as (q0 & x & Hr & Hc & Hx).
      exists q, x. split_and!; [done| |done]. by eapply csteps_cons.
  - intros (q0 & x & Hr & Hc & Hx).
    eapply drives_rtc; [done|]. by eapply csteps_drives.
Qed.

Lemma start_never_reads fsm ch n :
  fsm_wf fsm → ¬ move (fsm_heap fsm) (start_state fsm) (Some ch) n.
Proof.
  intros [_ Hs _]. rewrite move_char_inv.
  unfold kind_of in Hs. unfold check_self_at, kind_of.
  destruct (fsm_heap fsm !! start_state fsm) as [st|]; [|done].
  simpl in Hs. injection Hs as Hk. unfold check_self. simpl. rewrite Hk.
  intros [[? _]|(_ & [?|?] & _)]; done.
Qed.

Lemma start_neq_term fsm : fsm_wf fsm → start_state fsm ≠ term_state fsm.
Proof. intros [_ Hs Ht] Heq. rewrite Heq in Hs. congruence. Qed.

Lemma leave_start fsm a :
  fsm_wf fsm →
  rtc (eps_edge (fsm_heap fsm)) a (term_state fsm) →
  rtc (eps_edge (fsm_heap fsm)) (start_state fsm) a →
  ∃ q, q ≠ start_state fsm ∧
       rtc (eps_edge (fsm_heap fsm)) (start_state fsm) q ∧
       rtc (eps_edge (fsm_heap fsm)) q (term_state fsm).
Proof.
  intros Hwf Hr. remember (term_state fsm) as t eqn:Ht.
  induction Hr as [a|a b c Hab Hbc IH]; intros Hs.
  - exists a. subst a. split_and!; [|done|done].
    intros Heq. by apply (start_neq_term fsm).
  - apply IH; [done|]. by eapply rtc_r.
Qed.

(** ** One character, one active state *)

Lemma elem_of_foldl_add (acc : gset nat) l x :
  x ∈ foldl (λ acc nxt, {[nxt]} ∪ acc) acc l ↔ x ∈ acc ∨ x ∈ l.
Proof.
  revert acc. induction l as [|n l IH]; intros acc; simpl.
  - set_solver.
  - rewrite IH. set_solver.
Qed.

Lemma step_state_spec h ch acc q :
  heap_closed h →
  ∃ acc', step_state h ch acc q = Ret acc' ∧
          ∀ x, x ∈ acc' ↔ x ∈ acc ∨ move h q (Some ch) x.
Proof.
  intros Hc. unfold step_state.
  destruct (h !! q) as [st|] eqn:Hq.
  - pose proof (loop_assigned h Hc q st Hq) as Hloop.
    assert (∀ x, move h q (Some ch) x ↔
      (check_self st ch = true ∧ x ∈ next_states st) ∨
      (x = q ∧ (kind st = StarState ∨ kind st = PlusState) ∧
       ∃ atom, loop_state st = Some atom ∧ check_self_at h atom ch = true))
      as Hmove.
    { intros x. rewrite move_char_inv, !(kind_of_Some h q st) by done.
      unfold check_self_at at 1. unfold next_of, loop_of.
      by rewrite Hq. }
    unfold loop_check.
    destruct st as [k nxt lp]; simpl in *.
    destruct k; unfold check_self in *; simpl in *;
      try (destruct Hloop as [atom ->]; [by auto|]);
      repeat case_bool_decide; try done; simpl;
      try destruct (check_self_at h atom ch) eqn:Hat;
      eexists; (split; [reflexivity|]);
      intros x; rewrite Hmove, ?elem_of_union, ?elem_of_foldl_add,
        ?elem_of_singleton; naive_solver congruence.
  - exists acc. split; [done|]. intros x. rewrite move_char_inv.
    unfold check_self_at, kind_of. rewrite Hq. naive_solver.
Qed.

Lemma for_each_step_state_spec h ch l acc :
  heap_closed h →
  ∃ acc', for_each (step_state h ch) l acc = Ret acc' ∧
          ∀ x, x ∈ acc' ↔ x ∈ acc ∨ ∃ q, q ∈ l ∧ move h q (Some ch) x.
Proof.
  intros Hc. revert acc. induction l as [|q l IH]; intros acc; simpl.
  - exists acc. split; [done|]. set_solver.
  - destruct (step_state_spec h ch acc q Hc) as (acc1 & -> & H1). simpl.
    destruct (IH acc1) as (acc2 & -> & H2).
    exists acc2. split; [done|]. intros x. rewrite H2, H1. set_solver.
Qed.

(** ** The simulator computes the transition rules *)

Section SimulatorTheory.

Context (order : gset nat → list nat).
Context (order_perm : ∀ X : gset nat, order X ≡ₚ elements X).
Context (fuel : nat).

Lemma elem_of_order X x : x ∈ order X ↔ x ∈ X.
Proof. rewrite (order_perm X). apply elem_of_elements. Qed.

Lemma NoDup_order X : NoDup (order X).
Proof. rewrite (order_perm X). apply NoDup_elements. Qed.

Lemma length_order X : length (order X) = size X.
Proof. by rewrite (order_perm X). Qed.

Lemma closure_start_inv h S0 : closure_inv h S0 (closure_start order S0).
Proof.
  split; simpl.
  - done.
  - intros x. by rewrite elem_of_reverse, elem_of_order.
  - intros x Hx. by exists x.
  - intros x n Hx. by rewrite elem_of_reverse, elem_of_order.
  - apply elem_of_order.
  - apply NoDup_order.
Qed.

Lemma closure_start_measure h S0 :
  S0 ⊆ allocated h → closure_measure h (closure_start order S0) = length h.
Proof.
  intros Hsub. unfold closure_measure. simpl.
  rewrite length_reverse, length_order, size_difference by done.
  apply subseteq_size in Hsub. rewrite size_allocated in *. lia.
Qed.

Lemma closure_run_spec h S0 :
  heap_closed h → S0 ⊆ allocated h → length h ≤ fuel →
  ∃ cv, closure_run order fuel h S0 = Ret cv ∧
        closure_inv h S0 cv ∧ stack cv = [].
Proof.
  intros Hc Hsub Hfuel.
  destruct (closure_while_terminates h fuel (closure_start order S0))
    as [cv Hcv]; [done|by rewrite closure_start_measure|].
  exists cv. split; [done|].
  eapply closure_while_inv; [done|]. apply closure_start_inv.
Qed.

Lemma closure_spec h S0 :
  heap_closed h → S0 ⊆ allocated h → length h ≤ fuel →
  ∃ R, closure order fuel h S0 = Ret R ∧ ∀ x, x ∈ R ↔ eps_reach h S0 x.
Proof.
  intros Hc Hsub Hfuel.
  destruct (closure_run_spec h S0) as (cv & Hrun & Hinv & Hstk); [done..|].
  exists (result cv). unfold closure. rewrite Hrun. split; [done|].
  intros x. split; [by apply Hinv|].
  intros (q & Hq & Hr).
  assert (q ∈ result cv) as Hin by by apply (inv_seed _ _ _ Hinv).
  clear Hq. induction Hr as [|a b c Hab _ IH]; [done|].
  apply IH. apply (inv_done _ _ _ Hinv a); [done| |done].
  rewrite Hstk. apply not_elem_of_nil.
Qed.

Lemma closure_allocated h S0 R :
  heap_closed h → S0 ⊆ allocated h → length h ≤ fuel →
  closure order fuel h S0 = Ret R → R ⊆ allocated h.
Proof.
  intros Hc Hsub Hfuel HR.
  destruct (closure_spec h S0) as (R' & HR' & Hspec); [done..|].
  assert (R' = R) as -> by congruence.
  intros x Hx. apply elem_of_allocated.
  eapply eps_reach_allocated; [done..|]. by apply Hspec.
Qed.

Lemma step_spec h A ch :
  heap_closed h → A ⊆ allocated h → length h ≤ fuel →
  ∃ A', step order fuel h A ch = Ret A' ∧ A' ⊆ allocated h ∧
        ∀ x, x ∈ A' ↔
             ∃ q n, q ∈ A ∧ move h q (Some ch) n ∧ rtc (eps_edge h) n x.
Proof.
  intros Hc Hsub Hfuel. unfold step.
  destruct (for_each_step_state_spec h ch (order A) ∅ Hc) as (N & -> & HN).
  simpl.
  assert (N ⊆ allocated h) as HNsub.
  { intros n. rewrite HN. intros [Hn|(q & Hq & Hm)]; [set_solver|].
    apply elem_of_allocated. eapply move_allocated; [done| |done].
    apply elem_of_allocated, Hsub. by apply elem_of_order. }
  destruct (closure_spec h N) as (R & HR & Hspec); [done..|].
  exists R. split_and!; [done|by eapply closure_allocated|].
  intros x. rewrite Hspec. unfold eps_reach. split.
  - intros (n & Hn & Hr). apply HN in Hn as [Hn|(q & Hq & Hm)]; [set_solver|].
    exists q, n. by rewrite <-elem_of_order.
  - intros (q & n & Hq & Hm & Hr). exists n. split; [|done].
    apply HN. right. exists q. by rewrite elem_of_order.
Qed.

Lemma for_each_step_spec h s A :
  heap_closed h → A ⊆ allocated h → length h ≤ fuel →
  ∃ A', for_each (step order fuel h) s A = Ret A' ∧ A' ⊆ allocated h ∧
        ∀ x, x ∈ A' ↔ ∃ q, q ∈ A ∧ csteps h q s x.
Proof.
  intros Hc Hsub Hfuel. revert A Hsub.
  induction s as [|ch s IH]; intros A Hsub; simpl.
  - exists A. split_and!; [done..|]. intros x. split.
    + intros Hx. exists x. split; [done|constructor].
    + intros (q & Hq & Hcs). by inversion Hcs; subst.
  - destruct (step_spec h A ch) as (A1 & -> & Hsub1 & HA1); [done..|]. simpl.
    destruct (IH A1 Hsub1) as (A2 & -> & Hsub2 & HA2).
    exists A2. split_and!; [done..|]. intros x. rewrite HA2. split.
    + intros (m & Hm & Hcs). apply HA1 in Hm as (q & n & Hq & Hmv & Hr).
      exists q. split; [done|]. by eapply csteps_cons.
    + intros (q & Hq & Hcs). inversion Hcs as [|? ? n m ? ? Hmv Hr Hcs']; subst.
      exists m. split; [|done]. apply HA1. eauto.
Qed.

(** [check_string] returns, and returns [True] exactly on the strings that
    drive the automaton from its start state to its termination state. *)
Lemma check_chars_spec fsm s :
  fsm_wf fsm → length (fsm_heap fsm) ≤ fuel →
  ∃ b, check_chars order fuel fsm s = Ret b ∧ (b = true ↔ accepts fsm s).
Proof.
  intros Hwf Hfuel. pose proof (wf_closed fsm Hwf) as Hc.
  unfold check_chars, accepts.
  set (h := fsm_heap fsm) in *. set (q0 := start_state fsm).
  assert (q0 < length h) as Hq0.
  { pose proof (wf_start fsm Hwf) as Hs. unfold kind_of in Hs.
    fold h q0 in Hs. destruct (h !! q0) eqn:E; [|done].
    by eapply lookup_lt_Some. }
  assert (({[q0]} : gset nat) ⊆ allocated h) as Hsub0.
  { intros x. rewrite elem_of_singleton, elem_of_allocated. by intros ->. }
  destruct (closure_spec h {[q0]}) as (R0 & -> & HR0); [done..|]. simpl.
  set (A0 := if decide (q0 ∈ R0) then R0 ∖ {[q0]} else R0).
  assert (∀ x, x ∈ A0 ↔ x ≠ q0 ∧ rtc (eps_edge h) q0 x) as HA0.
  { intros x. subst A0. transitivity (x ≠ q0 ∧ x ∈ R0).
    - case_decide; set_solver.
    - rewrite HR0. unfold eps_reach. set_solver. }
  assert (A0 ⊆ allocated h) as Hsub1.
  { intros x Hx. apply HA0 in Hx as [_ Hx]. apply elem_of_allocated.
    apply (eps_reach_allocated h {[q0]}); [done..|]. exists q0. set_solver. }
  destruct (for_each_step_spec h s A0) as (A1 & -> & Hsub2 & HA1); [done..|].
  simpl.
  destruct (closure_spec h A1) as (R2 & -> & HR2); [done..|]. simpl.
  eexists. split; [reflexivity|].
  rewrite bool_decide_eq_true, HR2, drives_normal_form. unfold eps_reach.
  split.
  - intros (y & Hy & Hr). apply HA1 in Hy as (q & Hq & Hcs).
    apply HA0 in Hq as [_ Hq]. eauto.
  - intros (q & x & Hq & Hcs & Hx).
    destruct (decide (q = q0)) as [->|Hne].
    + destruct s as [|ch s].
      * inversion Hcs; subst.
        destruct (leave_start fsm q0 Hwf Hx) as (q & Hne & Hq1 & Hq2); [done|].
        exists q. split; [|done]. apply HA1. exists q.
        split; [by apply HA0|constructor].
      * inversion Hcs; subst. by edestruct (start_never_reads fsm).
    + exists x. split; [|done]. apply HA1. exists q. split; [|done].
      by apply HA0.
Qed.

End SimulatorTheory.

(** ** The builder produces the closed form *)

Lemma loop_view_all pattern : loop_view pattern.
Proof.
  remember (length pattern) as n eqn:Hn. revert pattern Hn.
  induction n as [n IH] using lt_wf_ind. intros pattern Hn.
  destruct pattern as [|c [|quant rest]].
  - constructor.
  - apply view_plain; [done|constructor].
  - destruct (is_quantifier quant) eqn:Hq.
    + apply view_quantified; [done|]. eapply IH; [|done]. simpl in Hn. lia.
    + apply view_plain; [done|]. eapply IH; [|done]. simpl in *. lia.
Qed.

Lemma is_quantifier_cases quant :
  is_quantifier quant = true → quant = "*"%char ∨ quant = "+"%char.
Proof.
  unfold is_quantifier. rewrite orb_true_iff, !bool_decide_eq_true. tauto.
Qed.

Lemma new_atom_eq c h : new_atom c h = new_state (atom_kind c) h.
Proof. unfold new_atom, atom_kind. by case_bool_decide. Qed.

Lemma check_self_atom st c ch :
  kind st = atom_kind c → check_self st ch = atom_matches c ch.
Proof.
  unfold check_self, atom_kind, atom_matches. intros ->.
  case_bool_decide; simpl; done.
Qed.

Lemma add_next_link src dst h : add_next src dst h = alter (link [dst]) src h.
Proof. done. Qed.

Lemma link_link ds1 ds2 st : link ds2 (link ds1 st) = link (ds1 ++ ds2) st.
Proof. unfold link. simpl. by rewrite app_assoc. Qed.

(** One iteration, as an update of the arena. *)
Lemma plain_atom_heap c prev h :
  prev < length h →
  plain_atom c prev h
  = (length h,
     alter (link [length h]) prev h ++ [mkState (atom_kind c) [] None]).
Proof.
  intros Hprev. unfold plain_atom. rewrite new_atom_eq. simpl.
  by rewrite add_next_link, alter_app_l.
Qed.

Lemma quantified_atom_star_heap c prev h :
  prev < length h →
  quantified_atom c "*" prev h
  = (S (length h),
     alter (link [length h; S (length h)]) prev h
       ++ [mkState (atom_kind c) [S (length h)] None;
           mkState StarState [] (Some (length h))]).
Proof.
  intros Hprev. unfold quantified_atom. rewrite new_atom_eq. simpl.
  rewrite length_app. simpl. replace (length h + 1) with (S (length h)) by lia.
  f_equal. rewrite <-app_assoc. simpl.
  rewrite !add_next_link. unfold set_loop_state.
  rewrite (alter_app_l _ h) by done.
  set (H := alter (link [length h]) prev h).
  assert (length H = length h) as HH by apply length_alter.
  rewrite !(alter_app_r_alt _ H) by lia.
  replace (length h - length H) with 0 by lia.
  replace (S (length h) - length H) with 1 by lia. simpl.
  rewrite alter_app_l by lia. subst H.
  rewrite list_alter_alter_eq. f_equal.
  apply list_alter_ext; [|done]. intros st _. apply link_link.
Qed.

Lemma quantified_atom_plus_heap c quant prev h :
  prev < length h → quant ≠ "*"%char →
  quantified_atom c quant prev h
  = (S (length h),
     alter (link [length h]) prev h
       ++ [mkState (atom_kind c) [S (length h)] None;
           mkState PlusState [] (Some (length h))]).
Proof.
  intros Hprev Hq. unfold quantified_atom. rewrite new_atom_eq. simpl.
  rewrite bool_decide_eq_false_2 by done.
  rewrite length_app. simpl. replace (length h + 1) with (S (length h)) by lia.
  f_equal. rewrite <-app_assoc. simpl.
  rewrite !add_next_link. unfold set_loop_state.
  rewrite (alter_app_l _ h) by done.
  set (H := alter (link [length h]) prev h).
  assert (length H = length h) as HH by apply length_alter.
  rewrite !(alter_app_r_alt _ H) by lia.
  replace (length h - length H) with 0 by lia.
  by replace (S (length h) - length H) with 1 by lia.
Qed.

(** The whole construction in closed form: the predecessor is linked to the
    entry states of the remaining tokens, whose states follow in order. *)
Lemma build_rest_layout term pattern prev h :
  prev < length h →
  build_rest term pattern prev h
  = alter (link (entry term (tokenize pattern) (length h))) prev h
      ++ layout term (tokenize pattern) (length h).
Proof.
  pose proof (loop_view_all pattern) as Hv. revert prev h.
  induction Hv as [|c quant rest Hq _ IH|c rest Hno _ IH]; intros prev h Hprev.
  - unfold build_rest. simpl. by rewrite app_nil_r.
  - unfold build_rest in *. simpl. rewrite Hq.
    destruct (is_quantifier_cases quant Hq) as [->| ->].
    + rewrite quantified_atom_star_heap by done.
      rewrite IH by (rewrite length_app, length_alter; simpl; lia).
      rewrite bool_decide_eq_true_2 by done. simpl.
      rewrite length_app, length_alter. simpl.
      replace (length h + 2) with (S (S (length h))) by lia.
      set (H := alter _ prev h).
      assert (length H = length h) as HH by apply length_alter.
      rewrite (alter_app_r_alt _ H) by lia.
      replace (S (length h) - length H) with 1 by lia.
      simpl. by rewrite <-app_assoc.
    + rewrite quantified_atom_plus_heap by done.
      rewrite IH by (rewrite length_app, length_alter; simpl; lia).
      rewrite bool_decide_eq_false_2 by done. simpl.
      rewrite length_app, length_alter. simpl.
      replace (length h + 2) with (S (S (length h))) by lia.
      set (H := alter _ prev h).
      assert (length H = length h) as HH by apply length_alter.
      rewrite (alter_app_r_alt _ H) by lia.
      replace (S (length h) - length H) with 1 by lia.
      simpl. by rewrite <-app_assoc.
  - assert (build_rest term (c :: rest) prev h
            = build_rest term rest (plain_atom c prev h).1
                (plain_atom c prev h).2) as ->.
    { unfold build_rest. simpl. destruct rest as [|quant rest'].
      - by destruct (plain_atom c prev h).
      - simpl in Hno. rewrite Hno. by destruct (plain_atom c prev h). }
    assert (tokenize (c :: rest) = mkToken c QNone :: tokenize rest) as ->.
    { destruct rest as [|quant rest']; [done|]. simpl in *. by rewrite Hno. }
    rewrite plain_atom_heap by done. simpl.
    rewrite IH by (rewrite length_app, length_alter; simpl; lia).
    rewrite length_app, length_alter. simpl.
    replace (length h + 1) with (S (length h)) by lia.
    set (H := alter _ prev h).
    assert (length H = length h) as HH by apply length_alter.
    rewrite (alter_app_r_alt _ H) by lia.
    replace (length h - length H) with 0 by lia.
    simpl. by rewrite <-app_assoc.
Qed.

Lemma init_chars_layout pattern :
  init_chars pattern
  = mkRegexFSM
      (mkState StartState (entry 1 (tokenize pattern) 2) None
         :: mkState TerminationState [] None
         :: layout 1 (tokenize pattern) 2)
      0 1.
Proof.
  pose proof (build_rest_layout 1 pattern 0
    [mkState StartState [] None; mkState TerminationState [] None]) as H.
  unfold build_rest in H. unfold init_chars. simpl in *.
  destruct (init_loop pattern 0 _) as [prev h]. rewrite H by lia. done.
Qed.

(** ** Unfolding the reference matcher *)

Lemma star_match_unfold c k s :
  star_match c k s
  = k s || match s with
           | ch :: s' => atom_matches c ch && star_match c k s'
           | [] => false
           end.
Proof. by destruct s. Qed.

(** ** Paths out of each class of state *)

Section StateAt.

Context (h : heap) (q : nat) (st : State).
Hypothesis Hq : h !! q = Some st.

Lemma is_epsilon_at : is_epsilon h q = is_epsilon_kind (kind st).
Proof. unfold is_epsilon. by rewrite Hq. Qed.

Lemma next_of_at : next_of h q = next_states st.
Proof. unfold next_of. by rewrite Hq. Qed.

Lemma loop_of_at : loop_of h q = loop_state st.
Proof. unfold loop_of. by rewrite Hq. Qed.

Lemma check_self_at_at ch : check_self_at h q ch = check_self st ch.
Proof. unfold check_self_at. by rewrite Hq. Qed.

Lemma move_eps_at n :
  move h q None n ↔ is_epsilon_kind (kind st) = true ∧ n ∈ next_states st.
Proof.
  rewrite <-is_epsilon_at, <-next_of_at. split.
  - by inversion 1.
  - intros [? ?]. by constructor.
Qed.

Lemma move_char_at ch n :
  move h q (Some ch) n ↔
    (check_self st ch = true ∧ n ∈ next_states st) ∨
    (n = q ∧ (kind st = StarState ∨ kind st = PlusState) ∧
     ∃ atom, loop_state st = Some atom ∧ check_self_at h atom ch = true).
Proof.
  rewrite move_char_inv, !(kind_of_Some h q st) by done.
  by rewrite check_self_at_at, next_of_at, loop_of_at.
Qed.

End StateAt.

Lemma atom_kind_cases c : atom_kind c = DotState ∨ atom_kind c = AsciiState c.
Proof. unfold atom_kind. case_bool_decide; auto. Qed.

Lemma drives_term_inv h t st s x :
  h !! t = Some st → kind st = TerminationState →
  drives h t s x ↔ s = [] ∧ x = t.
Proof.
  intros Ht Hk. split.
  - inversion 1 as [|? n ? ? Hm|? ch n ? ? Hm]; subst; [done| |].
    + apply (move_eps_at h t st Ht) in Hm as [Hm _]. by rewrite Hk in Hm.
    + apply (move_char_at h t st Ht) in Hm. unfold check_self in Hm.
      rewrite Hk in Hm. naive_solver.
  - intros [-> ->]. constructor.
Qed.

Lemma drives_start_inv h q st s t :
  h !! q = Some st → kind st = StartState → q ≠ t →
  drives h q s t ↔ ∃ n, n ∈ next_states st ∧ drives h n s t.
Proof.
  intros Hq Hk Hne. split.
  - inversion 1 as [|? n ? ? Hm|? ch n ? ? Hm]; subst; [done| |].
    + apply (move_eps_at h q st Hq) in Hm as [_ Hm]. eauto.
    + apply (move_char_at h q st Hq) in Hm. unfold check_self in Hm.
      rewrite Hk in Hm. naive_solver.
  - intros (n & Hn & Hd). eapply drives_eps; [|done].
    apply (move_eps_at h q st Hq). by rewrite Hk.
Qed.

Lemma drives_atom_inv h x st c s t :
  h !! x = Some st → kind st = atom_kind c → x ≠ t →
  drives h x s t ↔
  ∃ ch s', s = ch :: s' ∧ atom_matches c ch = true ∧
           ∃ n, n ∈ next_states st ∧ drives h n s' t.
Proof.
  intros Hx Hk Hne. split.
  - inversion 1 as [|? n ? ? Hm|? ch n s' ? Hm Hd]; subst; [done| |].
    + apply (move_eps_at h x st Hx) in Hm as [Hm _]. rewrite Hk in Hm.
      by destruct (atom_kind_cases c) as [Hc|Hc]; rewrite Hc in Hm.
    + apply (move_char_at h x st Hx) in Hm.
      rewrite (check_self_atom st c) in Hm by done.
      destruct Hm as [[Hm Hn]|(_ & Hm & _)].
      * exists ch, s'. eauto.
      * rewrite Hk in Hm.
        destruct (atom_kind_cases c) as [Hc|Hc]; rewrite Hc in Hm;
          naive_solver.
  - intros (ch & s' & -> & Hm & n & Hn & Hd).
    eapply drives_char; [|done]. apply (move_char_at h x st Hx). left.
    by rewrite (check_self_atom st c).
Qed.

Lemma drives_quantifier_inv h y st x sta c t k :
  h !! y = Some st → kind st = StarState ∨ kind st = PlusState →
  loop_state st = Some x → h !! x = Some sta → kind sta = atom_kind c →
  y ≠ t →
  (∀ s, (∃ n, n ∈ next_states st ∧ drives h n s t) ↔ k s = true) →
  ∀ s, drives h y s t ↔ star_match c k s = true.
Proof.
  intros Hy Hk Hloop Hx Hkx Hne Hout.
  assert (check_self st = λ _, false) as Hno.
  { unfold check_self. by destruct Hk as [-> | ->]. }
  assert (is_epsilon_kind (kind st) = true) as Heps.
  { by destruct Hk as [-> | ->]. }
  induction s as [|ch s IH]; rewrite star_match_unfold, orb_true_iff.
  - split.
    + inversion 1 as [|? n ? ? Hm Hd|]; subst; [done|].
      apply (move_eps_at h y st Hy) in Hm as [_ Hm].
      left. apply Hout. eauto.
    + intros [Hks|?]; [|done]. apply Hout in Hks as (n & Hn & Hd).
      eapply drives_eps; [|done]. by apply (move_eps_at h y st Hy).
  - rewrite andb_true_iff. split.
    + inversion 1 as [|? n ? ? Hm Hd|? ? n ? ? Hm Hd]; subst.
      * apply (move_eps_at h y st Hy) in Hm as [_ Hm].
        left. apply Hout. eauto.
      * apply (move_char_at h y st Hy) in Hm. rewrite Hno in Hm.
        destruct Hm as [[? _]|(-> & _ & atom & Hat & Hch)]; [done|].
        right. rewrite Hloop in Hat. injection Hat as <-.
        rewrite (check_self_at_at h x sta Hx),
          (check_self_atom sta c) in Hch by done.
        split; [done|]. by apply IH.
    + intros [Hks|[Hch Hs]].
      * apply Hout in Hks as (n & Hn & Hd).
        eapply drives_eps; [|done]. by apply (move_eps_at h y st Hy).
      * eapply drives_char; [|by apply IH].
        apply (move_char_at h y st Hy). right. split_and!; [done..|].
        exists x. split; [done|].
        by rewrite (check_self_at_at h x sta Hx), (check_self_atom sta c).
Qed.

(** ** The language of the built automaton *)

Lemma layout_language term ts base pre s :
  length pre = base → term < base →
  (∃ st, pre !! term = Some st ∧ kind st = TerminationState) →
  (∃ n, n ∈ entry term ts base ∧
        drives (pre ++ layout term ts base) n s term)
  ↔ matches ts s = true.
Proof.
  revert base pre s.
  induction ts as [|[c quant] ts IH]; intros base pre s Hlen Hlt Hterm.
  - simpl. rewrite app_nil_r. destruct Hterm as (st & Ht & Hk).
    setoid_rewrite list_elem_of_singleton.
    split.
    + intros (n & -> & Hd).
      apply (drives_term_inv _ _ st) in Hd as [-> _]; [|done..]. done.
    + destruct s; [|done]. intros _. exists term. split; [done|constructor].
  - assert (∀ ext, ∃ st, (pre ++ ext) !! term = Some st
                         ∧ kind st = TerminationState) as Hterm'.
    { intros ext. destruct Hterm as (st & Ht & Hk). exists st.
      split; [|done]. rewrite lookup_app_l by lia. done. }
    assert (base ≠ term ∧ S base ≠ term) as [Hb0 Hb1] by lia.
    destruct quant; simpl.
    + set (A := mkState (atom_kind c) (entry term ts (S base)) None).
      set (hf := pre ++ A :: layout term ts (S base)).
      assert (hf !! base = Some A) as HA.
      { subst hf base. by rewrite list_lookup_middle. }
      assert (∀ s, (∃ n, n ∈ entry term ts (S base) ∧ drives hf n s term)
                   ↔ matches ts s = true) as Hrest.
      { intros s'. subst hf. rewrite (cons_middle A), app_assoc.
        apply IH; [rewrite length_app; simpl; lia|lia|apply Hterm']. }
      setoid_rewrite list_elem_of_singleton.
      transitivity (drives hf base s term); [naive_solver|].
      rewrite (drives_atom_inv hf base A c) by done.
      destruct s as [|ch s']; [naive_solver|].
      rewrite andb_true_iff, <-Hrest. naive_solver.
    + set (A := mkState (atom_kind c) [S base] None).
      set (Y := mkState StarState (entry term ts (S (S base))) (Some base)).
      set (hf := pre ++ A :: Y :: layout term ts (S (S base))).
      assert (hf !! base = Some A) as HA.
      { subst hf base. by rewrite list_lookup_middle. }
      assert (hf !! S base = Some Y) as HY.
      { subst hf base. rewrite (cons_middle A), app_assoc.
        apply list_lookup_middle. rewrite length_app. simpl. lia. }
      assert (∀ s, (∃ n, n ∈ entry term ts (S (S base)) ∧ drives hf n s term)
                   ↔ matches ts s = true) as Hrest.
      { intros s'. subst hf.
        rewrite (cons_middle A), (cons_middle Y), !app_assoc, <-(app_assoc pre).
        apply IH; [rewrite length_app; simpl; lia|lia|apply Hterm']. }
      pose proof (drives_quantifier_inv hf (S base) Y base A c term
        (matches ts) HY (or_introl eq_refl) eq_refl HA eq_refl Hb1 Hrest)
        as Hstar.
      split.
      * intros (n & Hn & Hd). apply elem_of_cons in Hn as [->|Hn].
        -- apply (drives_atom_inv hf base A c) in Hd
             as (ch & s' & -> & Hch & n & Hn & Hd); [|done..].
           apply list_elem_of_singleton in Hn as ->.
           apply Hstar in Hd. rewrite star_match_unfold, Hch, Hd.
           apply orb_true_r.
        -- apply list_elem_of_singleton in Hn as ->. by apply Hstar.
      * intros Hm. exists (S base). split; [set_solver|]. by apply Hstar.
    + set (A := mkState (atom_kind c) [S base] None).
      set (Y := mkState PlusState (entry term ts (S (S base))) (Some base)).
      set (hf := pre ++ A :: Y :: layout term ts (S (S base))).
      assert (hf !! base = Some A) as HA.
      { subst hf base. by rewrite list_lookup_middle. }
      assert (hf !! S base = Some Y) as HY.
      { subst hf base. rewrite (cons_middle A), app_assoc.
        apply list_lookup_middle. rewrite length_app. simpl. lia. }
      assert (∀ s, (∃ n, n ∈ entry term ts (S (S base)) ∧ drives hf n s term)
                   ↔ matches ts s = true) as Hrest.
      { intros s'. subst hf.
        rewrite (cons_middle A), (cons_middle Y), !app_assoc, <-(app_assoc pre).
        apply IH; [rewrite length_app; simpl; lia|lia|apply Hterm']. }
      pose proof (drives_quantifier_inv hf (S base) Y base A c term
        (matches ts) HY (or_intror eq_refl) eq_refl HA eq_refl Hb1 Hrest)
        as Hplus.
      setoid_rewrite list_elem_of_singleton.
      transitivity (drives hf base s term); [naive_solver|].
      rewrite (drives_atom_inv hf base A c) by done.
      destruct s as [|ch s']; [naive_solver|].
      rewrite andb_true_iff, <-Hplus. simpl.
      setoid_rewrite list_elem_of_singleton. naive_solver.
Qed.

Lemma accepts_matches pattern s :
  accepts (init_chars pattern) s ↔ matches (tokenize pattern) s = true.
Proof.
  rewrite init_chars_layout. unfold accepts. simpl.
  set (ts := tokenize pattern).
  set (S0 := mkState StartState (entry 1 ts 2) None).
  set (T := mkState TerminationState [] None).
  rewrite (drives_start_inv _ 0 S0) by done. simpl.
  apply (layout_language 1 ts 2 [S0; T]); [done|lia|].
  by exists T.
Qed.

(** ** Well-formedness of the built automaton *)

Lemma entry_bounds term ts base n :
  n ∈ entry term ts base →
  n = term ∨ (base ≤ n ∧ n < base + length (layout term ts base)).
Proof.
  destruct ts as [|[c []] ts]; simpl;
    rewrite ?elem_of_cons, elem_of_nil; intros H; right + left; lia.
Qed.

Lemma atom_kind_not_special c :
  atom_kind c ≠ StartState ∧ atom_kind c ≠ TerminationState ∧
  atom_kind c ≠ StarState ∧ atom_kind c ≠ PlusState.
Proof. destruct (atom_kind_cases c) as [-> | ->]; done. Qed.

(** Every state allocated for a token sequence: its transitions lead forward
    or to the termination state, and a quantifier state sits right behind the
    atom it repeats. *)
Lemma layout_state term ts base i st :
  layout term ts base !! i = Some st →
  (∀ n, n ∈ next_states st →
        n = term ∨ (base + i < n ∧ n < base + length (layout term ts base))) ∧
  kind st ≠ StartState ∧ kind st ≠ TerminationState ∧
  (kind st = StarState ∨ kind st = PlusState →
   ∃ j sta c, i = S j ∧ loop_state st = Some (base + j) ∧
              layout term ts base !! j = Some sta ∧
              kind sta = atom_kind c ∧ next_states sta = [base + i]).
Proof.
  revert base i. induction ts as [|[c quant] ts IH]; intros base i; [done|].
  pose proof (atom_kind_not_special c) as (Ha1 & Ha2 & Ha3 & Ha4).
  assert (∀ b i', layout term ts b !! i' = Some st →
    ∀ d, b = d + base → i = d + i' →
    (∀ n, n ∈ next_states st →
       n = term ∨ (base + i < n ∧ n < b + length (layout term ts b))) ∧
    kind st ≠ StartState ∧ kind st ≠ TerminationState ∧
    (kind st = StarState ∨ kind st = PlusState →
     ∃ j sta c, i' = S j ∧ loop_state st = Some (base + (d + j)) ∧
                layout term ts b !! j = Some sta ∧
                kind sta = atom_kind c ∧ next_states sta = [base + i]))
    as Hrest.
  { intros b i' Hst d -> ->. destruct (IH _ _ Hst) as (H1 & H2 & H3 & H4).
    split_and!; [|done..|].
    - intros n Hn. destruct (H1 n Hn); [by left|right; lia].
    - intros Hk. destruct (H4 Hk) as (j & sta & c' & -> & Hl & Hj & Hc & Hn).
      exists j, sta, c'. split_and!; [done| |done..|].
      + rewrite Hl. f_equal. lia.
      + rewrite Hn. f_equal. lia. }
  destruct quant; simpl.
  - destruct i as [|i]; simpl.
    + intros [= <-]. simpl. split_and!; [|done..|naive_solver].
      intros n Hn. apply entry_bounds in Hn. lia.
    + intros Hst. destruct (Hrest _ _ Hst 1) as (H1 & H2 & H3 & H4); [lia..|].
      split_and!; [|done..|].
      * intros n Hn. destruct (H1 n Hn); [by left|right; lia].
      * intros Hk. destruct (H4 Hk) as (j & sta & c' & -> & Hl & Hj & Hc & Hn).
        exists (S j), sta, c'. by split_and!.
  - destruct i as [|[|i]]; simpl.
    + intros [= <-]. simpl. split_and!; [|done..|naive_solver].
      intros n ->%list_elem_of_singleton. right. lia.
    + intros [= <-]. simpl. split_and!; [|done..|].
      * intros n Hn. apply entry_bounds in Hn. lia.
      * intros _. eexists 0, _, c. split_and!; try done.
        -- f_equal. lia.
        -- simpl. f_equal. lia.
    + intros Hst. destruct (Hrest _ _ Hst 2) as (H1 & H2 & H3 & H4); [lia..|].
      split_and!; [|done..|].
      * intros n Hn. destruct (H1 n Hn); [by left|right; lia].
      * intros Hk. destruct (H4 Hk) as (j & sta & c' & -> & Hl & Hj & Hc & Hn).
        exists (S (S j)), sta, c'. by split_and!.
  - destruct i as [|[|i]]; simpl.
    + intros [= <-]. simpl. split_and!; [|done..|naive_solver].
      intros n ->%list_elem_of_singleton. right. lia.
    + intros [= <-]. simpl. split_and!; [|done..|].
      * intros n Hn. apply entry_bounds in Hn. lia.
      * intros _. eexists 0, _, c. split_and!; try done.
        -- f_equal. lia.
        -- simpl. f_equal. lia.
    + intros Hst. destruct (Hrest _ _ Hst 2) as (H1 & H2 & H3 & H4); [lia..|].
      split_and!; [|done..|].
      * intros n Hn. destruct (H1 n Hn); [by left|right; lia].
      * intros Hk. destruct (H4 Hk) as (j & sta & c' & -> & Hl & Hj & Hc & Hn).
        exists (S (S j)), sta, c'. by split_and!.
Qed.

(** The arena of [init_chars], state by state. *)
Lemma init_chars_lookup pattern q st :
  fsm_heap (init_chars pattern) !! q = Some st →
  (q = 0 ∧ st = mkState StartState (entry 1 (tokenize pattern) 2) None) ∨
  (q = 1 ∧ st = mkState TerminationState [] None) ∨
  (∃ i, q = 2 + i ∧ layout 1 (tokenize pattern) 2 !! i = Some st).
Proof.
  rewrite init_chars_layout. simpl. destruct q as [|[|i]]; simpl.
  - intros [= <-]. by left.
  - intros [= <-]. right. by left.
  - intros Hst. right. right. by exists i.
Qed.

Lemma length_init_chars_layout pattern :
  length (fsm_heap (init_chars pattern))
  = 2 + length (layout 1 (tokenize pattern) 2).
Proof. by rewrite init_chars_layout. Qed.

Lemma init_chars_wf pattern : fsm_wf (init_chars pattern).
Proof.
  split; [split|..].
  - intros q st n Hq Hn. rewrite length_init_chars_layout.
    apply init_chars_lookup in Hq as [[-> ->]|[[-> ->]|(i & -> & Hi)]].
    + simpl in Hn. apply entry_bounds in Hn. lia.
    + by apply elem_of_nil in Hn.
    + apply layout_state in Hi as (H1 & _). destruct (H1 n Hn); lia.
  - intros q st Hq Hk.
    apply init_chars_lookup in Hq as [[-> ->]|[[-> ->]|(i & -> & Hi)]].
    + by destruct Hk.
    + by destruct Hk.
    + apply layout_state in Hi as (_ & _ & _ & H4).
      destruct (H4 Hk) as (j & sta & c & _ & -> & _). done.
  - by rewrite init_chars_layout.
  - by rewrite init_chars_layout.
Qed.

(** One state per pattern character, besides the two distinguished states. *)
Lemma length_layout_tokenize term pattern base :
  length (layout term (tokenize pattern) base) = length pattern.
Proof.
  pose proof (loop_view_all pattern) as Hv. revert base.
  induction Hv as [|c quant rest Hq _ IH|c rest Hno _ IH]; intros base.
  - done.
  - simpl. rewrite Hq. destruct (bool_decide (quant = "*"%char));
      simpl; by rewrite IH.
  - assert (tokenize (c :: rest) = mkToken c QNone :: tokenize rest) as ->.
    { destruct rest as [|quant rest']; [done|]. simpl in *. by rewrite Hno. }
    simpl. by rewrite IH.
Qed.

Lemma length_init_chars pattern :
  length (fsm_heap (init_chars pattern)) = 2 + length pattern.
Proof. by rewrite length_init_chars_layout, length_layout_tokenize. Qed.

Lemma length_list_ascii_of_string s :
  length (list_ascii_of_string s) = String.length s.
Proof. induction s; simpl; by f_equal. Qed.

Lemma length_RegexFSM_init pattern :
  length (fsm_heap (RegexFSM_init pattern)) = 2 + String.length pattern.
Proof.
  unfold RegexFSM_init. by rewrite length_init_chars, length_list_ascii_of_string.
Qed.

(** ** [check_string] decides the reference matcher *)

Section Matching.

Context (order : gset nat → list nat).
Context (order_perm : ∀ X : gset nat, order X ≡ₚ elements X).

Lemma check_chars_init fuel pattern s :
  2 + length pattern ≤ fuel →
  check_chars order fuel (init_chars pattern) s
  = Ret (matches (tokenize pattern) s).
Proof.
  intros Hfuel.
  destruct (check_chars_spec order order_perm fuel (init_chars pattern) s)
    as (b & -> & Hb).
  - apply init_chars_wf.
  - by rewrite length_init_chars.
  - f_equal. rewrite accepts_matches in Hb.
    destruct b, (matches (tokenize pattern) s); naive_solver.
Qed.

Lemma check_string_matches fuel pattern s :
  2 + String.length pattern ≤ fuel →
  check_string order fuel (RegexFSM_init pattern) s
  = Ret (matches (tokenize (list_ascii_of_string pattern))
           (list_ascii_of_string s)).
Proof.
  intros Hfuel. apply check_chars_init.
  by rewrite length_list_ascii_of_string.
Qed.

End Matching.

(** ** [check_string] never raises on a well-formed arena *)

Lemma closure_while_no_error fuel h cv :
  closure_while fuel h cv ≠ AttributeError.
Proof.
  revert cv. induction fuel as [|fuel IH]; intros [[|st stk] res log];
    simpl; try done.
Qed.

Lemma closure_no_error order fuel h S0 :
  closure order fuel h S0 ≠ AttributeError.
Proof.
  unfold closure, closure_run.
  destruct (closure_while _ _ _) eqn:E; simpl; try done.
  by apply closure_while_no_error in E.
Qed.

Lemma step_no_error order fuel h A ch :
  heap_closed h → step order fuel h A ch ≠ AttributeError.
Proof.
  intros Hc. unfold step.
  destruct (for_each_step_state_spec h ch (order A) ∅ Hc) as (N & -> & _).
  simpl. apply closure_no_error.
Qed.

Lemma for_each_step_no_error order fuel h s A :
  heap_closed h → for_each (step order fuel h) s A ≠ AttributeError.
Proof.
  intros Hc. revert A. induction s as [|ch s IH]; intros A; simpl; [done|].
  destruct (step order fuel h A ch) eqn:E; simpl; try done.
  by apply step_no_error in E.
Qed.

Lemma check_chars_no_error order fuel fsm s :
  heap_closed (fsm_heap fsm) → check_chars order fuel fsm s ≠ AttributeError.
Proof.
  intros Hc. unfold check_chars.
  destruct (closure order fuel _ {[_]}) as [R0| |] eqn:E0; simpl; try done;
    [|by apply closure_no_error in E0].
  destruct (for_each _ s _) as [A1| |] eqn:E1; simpl; try done;
    [|by apply for_each_step_no_error in E1].
  destruct (closure order fuel _ A1) as [R2| |] eqn:E2; simpl; try done.
  by apply closure_no_error in E2.
Qed.

(** ** Transitions of the built automaton *)

Lemma layout_reachable term ts base pre p :
  length pre = base →
  (∀ n, n ∈ entry term ts base → edge (pre ++ layout term ts base) p n) →
  (∀ q, base ≤ q → q < base + length (layout term ts base) →
        rtc (edge (pre ++ layout term ts base)) p q) ∧
  rtc (edge (pre ++ layout term ts base)) p term.
Proof.
  revert base pre p.
  induction ts as [|[c quant] ts IH]; intros base pre p Hlen Hp.
  - simpl in *. split; [intros; lia|]. apply rtc_once, Hp. set_solver.
  - assert (edge (pre ++ layout term (mkToken c quant :: ts) base) p base)
      as Hbase.
    { apply Hp. destruct quant; simpl; set_solver. }
    destruct quant; simpl in *.
    + set (A := mkState (atom_kind c) (entry term ts (S base)) None) in *.
      set (hf := pre ++ A :: layout term ts (S base)) in *.
      assert (hf !! base = Some A) as HA.
      { subst hf base. by rewrite list_lookup_middle. }
      destruct (IH (S base) (pre ++ [A]) base) as [Hq Ht].
      { rewrite length_app. simpl. lia. }
      { rewrite <-app_assoc. simpl. fold hf. intros n Hn.
        unfold edge. by rewrite (next_of_at hf base A). }
      rewrite <-app_assoc in Hq, Ht. simpl in Hq, Ht. fold hf in Hq, Ht.
      split.
      * intros q Hge Hlt. destruct (decide (q = base)) as [->|Hne].
        -- by apply rtc_once.
        -- eapply rtc_l; [done|]. apply Hq; lia.
      * by eapply rtc_l.
    + set (A := mkState (atom_kind c) [S base] None) in *.
      set (Y := mkState StarState (entry term ts (S (S base))) (Some base)) in *.
      set (hf := pre ++ A :: Y :: layout term ts (S (S base))) in *.
      assert (hf !! base = Some A) as HA.
      { subst hf base. by rewrite list_lookup_middle. }
      assert (hf !! S base = Some Y) as HY.
      { subst hf base. rewrite (cons_middle A), app_assoc.
        apply list_lookup_middle. rewrite length_app. simpl. lia. }
      assert (edge hf base (S base)) as Hstep.
      { unfold edge. rewrite (next_of_at hf base A) by done. set_solver. }
      destruct (IH (S (S base)) (pre ++ [A; Y]) (S base)) as [Hq Ht].
      { rewrite length_app. simpl. lia. }
      { rewrite <-app_assoc. simpl. fold hf. intros n Hn.
        unfold edge. by rewrite (next_of_at hf (S base) Y). }
      rewrite <-app_assoc in Hq, Ht. simpl in Hq, Ht. fold hf in Hq, Ht.
      split.
      * intros q Hge Hlt. destruct (decide (q = base)) as [->|Hne].
        -- by apply rtc_once.
        -- eapply rtc_l; [done|]. destruct (decide (q = S base)) as [->|Hne'].
           ++ by apply rtc_once.
           ++ eapply rtc_l; [done|]. apply Hq; lia.
      * eapply rtc_l; [done|]. by eapply rtc_l.
    + set (A := mkState (atom_kind c) [S base] None) in *.
      set (Y := mkState PlusState (entry term ts (S (S base))) (Some base)) in *.
      set (hf := pre ++ A :: Y :: layout term ts (S (S base))) in *.
      assert (hf !! base = Some A) as HA.
      { subst hf base. by rewrite list_lookup_middle. }
      assert (hf !! S base = Some Y) as HY.
      { subst hf base. rewrite (cons_middle A), app_assoc.
        apply list_lookup_middle. rewrite length_app. simpl. lia. }
      assert (edge hf base (S base)) as Hstep.
      { unfold edge. rewrite (next_of_at hf base A) by done. set_solver. }
      destruct (IH (S (S base)) (pre ++ [A; Y]) (S base)) as [Hq Ht].
      { rewrite length_app. simpl. lia. }
      { rewrite <-app_assoc. simpl. fold hf. intros n Hn.
        unfold edge. by rewrite (next_of_at hf (S base) Y). }
      rewrite <-app_assoc in Hq, Ht. simpl in Hq, Ht. fold hf in Hq, Ht.
      split.
      * intros q Hge Hlt. destruct (decide (q = base)) as [->|Hne].
        -- by apply rtc_once.
        -- eapply rtc_l; [done|]. destruct (decide (q = S base)) as [->|Hne'].
           ++ by apply rtc_once.
           ++ eapply rtc_l; [done|]. apply Hq; lia.
      * eapply rtc_l; [done|]. by eapply rtc_l.
Qed.

Lemma init_chars_reachable pattern q :
  q < length (fsm_heap (init_chars pattern)) →
  rtc (edge (fsm_heap (init_chars pattern))) 0 q.
Proof.
  rewrite init_chars_layout. simpl. set (ts := tokenize pattern).
  set (S0 := mkState StartState (entry 1 ts 2) None).
  set (T := mkState TerminationState [] None).
  intros Hq.
  destruct (layout_reachable 1 ts 2 [S0; T] 0) as [Hall Hterm]; [done|done|].
  destruct q as [|[|q]]; [done|exact Hterm|]. apply Hall; lia.
Qed.

Lemma init_chars_no_edge_into_start pattern q :
  ¬ edge (fsm_heap (init_chars pattern)) q 0.
Proof.
  unfold edge, next_of.
  destruct (fsm_heap (init_chars pattern) !! q) as [st|] eqn:Hq;
    [|apply not_elem_of_nil].
  intros Hn.
  apply init_chars_lookup in Hq as [[-> ->]|[[-> ->]|(i & -> & Hi)]].
  - simpl in Hn. apply entry_bounds in Hn. lia.
  - by apply elem_of_nil in Hn.
  - apply layout_state in Hi as (H1 & _). destruct (H1 0 Hn); lia.
Qed.

(** ** The loop over the index *)

Lemma init_while_init_loop fuel pattern i prev h :
  length pattern ≤ i + fuel →
  init_while fuel pattern i prev h = Some (init_loop (drop i pattern) prev h).
Proof.
  revert i prev h. induction fuel as [|fuel IH]; intros i prev h Hfuel.
  - simpl. case_decide; [lia|]. by rewrite drop_ge by lia.
  - simpl. case_decide as Hi; [|by rewrite drop_ge by lia].
    destruct (pattern !! i) as [c|] eqn:Hc;
      [|apply lookup_ge_None in Hc; lia].
    rewrite (drop_S _ _ _ Hc).
    destruct (pattern !! (i + 1)) as [quant|] eqn:Hquant.
    + replace (i + 1) with (S i) in * by lia.
      rewrite (drop_S _ _ _ Hquant). simpl.
      destruct (is_quantifier quant).
      * destruct (quantified_atom c quant prev h) as [prev' h'].
        replace (i + 2) with (S (S i)) by lia. apply IH. lia.
      * destruct (plain_atom c prev h) as [prev' h'].
        rewrite IH by lia. by rewrite (drop_S _ _ _ Hquant).
    + replace (i + 1) with (S i) in * by lia.
      apply lookup_ge_None in Hquant.
      rewrite (drop_ge _ (S i)) by lia. simpl.
      destruct (plain_atom c prev h) as [prev' h'].
      rewrite IH by lia. by rewrite drop_ge by lia.
Qed.

(** ** Empty input and quantifier-free patterns *)

Lemma drives_nil_rtc h q q' : drives h q [] q' ↔ rtc (eps_edge h) q q'.
Proof.
  split.
  - intros Hd. remember [] as s eqn:Hs.
    induction Hd as [|q n s q' Hm _ IH|]; [done| |done].
    eapply rtc_l; [exact Hm|]. by apply IH.
  - intros Hr. eapply drives_rtc; [done|]. constructor.
Qed.

Lemma matches_nil ts :
  matches ts [] = true ↔ Forall (λ t, tok_quant t = QStar) ts.
Proof.
  induction ts as [|[c quant] ts IH]; simpl.
  - split; [constructor|done].
  - rewrite Forall_cons. simpl. destruct quant; simpl; try naive_solver.
    rewrite orb_false_r. naive_solver.
Qed.

Lemma tokenize_quantifier_free pattern :
  Forall (λ c, is_quantifier c = false) pattern →
  tokenize pattern = (λ c, mkToken c QNone) <$> pattern.
Proof.
  induction 1 as [|c rest Hc Hrest IH]; [done|].
  simpl. destruct Hrest as [|quant rest' Hq _]; [done|].
  rewrite Hq. by rewrite IH.
Qed.

Lemma atom_matches_spec c ch :
  atom_matches c ch = true ↔ c = "."%char ∨ ch = c.
Proof.
  unfold atom_matches. by rewrite orb_true_iff, !bool_decide_eq_true.
Qed.

Lemma matches_plain pattern s :
  matches ((λ c, mkToken c QNone) <$> pattern) s = true
  ↔ Forall2 (λ c ch, c = "."%char ∨ ch = c) pattern s.
Proof.
  revert s. induction pattern as [|c pattern IH]; intros [|ch s]; simpl.
  - split; [constructor|done].
  - split; [done|inversion 1].
  - split; [done|inversion 1].
  - rewrite andb_true_iff, atom_matches_spec, IH, Forall2_cons. done.
Qed.

Lemma Forall2_literal (pattern s : list ascii) :
  "."%char ∉ pattern →
  Forall2 (λ c ch, c = "."%char ∨ ch = c) pattern s ↔ s = pattern.
Proof.
  intros Hdot. split.
  - induction 1 as [|c ch pattern s Hc _ IH]; [done|].
    rewrite not_elem_of_cons in Hdot. destruct Hdot as [Hne Hdot].
    f_equal; [naive_solver|by apply IH].
  - intros ->. clear Hdot. induction pattern; constructor; auto.
Qed.

Lemma layout_plus term ts base i st :
  layout term ts base !! i = Some st → kind st = PlusState →
  Exists (λ t, tok_quant t = QPlus) ts.
Proof.
  revert base i. induction ts as [|[c quant] ts IH]; intros base i; [done|].
  pose proof (atom_kind_not_special c) as (_ & _ & _ & Ha).
  destruct quant; simpl.
  - destruct i as [|i]; simpl.
    + intros [= <-] Hk. done.
    + intros Hst Hk. apply Exists_cons_tl. by eapply IH.
  - destruct i as [|[|i]]; simpl.
    + intros [= <-] Hk. done.
    + intros [= <-] Hk. done.
    + intros Hst Hk. apply Exists_cons_tl. by eapply IH.
  - intros _ _. by apply Exists_cons_hd.
Qed.

Lemma layout_plus_state term ts base :
  Exists (λ t, tok_quant t = QPlus) ts →
  ∃ i st, layout term ts base !! i = Some st ∧ kind st = PlusState.
Proof.
  intros Hex. revert base.
  induction Hex as [[c quant] ts Hq|[c quant] ts _ IH]; intros base.
  - simpl in Hq. subst quant. simpl. by eexists 1, _.
  - destruct quant; simpl.
    + destruct (IH (S base)) as (i & st & Hi & Hk). by exists (S i), st.
    + destruct (IH (S (S base))) as (i & st & Hi & Hk). by exists (S (S i)), st.
    + by eexists 1, _.
Qed.

(** A [PlusState] is allocated exactly when some iteration of the loop
    consumes a [+] behind its atom. *)
Lemma plus_state_iff_token pattern :
  (∃ q, kind_of (fsm_heap (init_chars pattern)) q = Some PlusState)
  ↔ Exists (λ t, tok_quant t = QPlus) (tokenize pattern).
Proof.
  split.
  - intros (q & Hq). unfold kind_of in Hq.
    destruct (fsm_heap (init_chars pattern) !! q) as [st|] eqn:Hst; [|done].
    simpl in Hq. injection Hq as Hk.
    apply init_chars_lookup in Hst as [[-> ->]|[[-> ->]|(i & -> & Hi)]];
      [done..|].
    by eapply layout_plus.
  - intros Hex. destruct (layout_plus_state 1 _ 2 Hex) as (i & st & Hi & Hk).
    exists (2 + i). rewrite init_chars_layout. unfold kind_of. simpl.
    by rewrite Hi, <-Hk.
Qed.

Lemma elements_order (X : gset nat) : elements X ≡ₚ elements X.
Proof. reflexivity. Qed.

(** ** One iteration of the builder *)

Section Extended.

Context (h : heap) (prev : nat) (dsts : list nat) (ext : list State).
Hypothesis Hprev : prev < length h.

Lemma lookup_extended_prev :
  (alter (link dsts) prev h ++ ext) !! prev = link dsts <$> h !! prev.
Proof.
  rewrite lookup_app_l by by rewrite length_alter.
  apply list_lookup_alter_eq.
Qed.

Lemma lookup_extended_old q :
  q < length h → q ≠ prev →
  (alter (link dsts) prev h ++ ext) !! q = h !! q.
Proof.
  intros Hq Hne. rewrite lookup_app_l by by rewrite length_alter.
  by apply list_lookup_alter_ne.
Qed.

Lemma lookup_extended_new i :
  (alter (link dsts) prev h ++ ext) !! (length h + i) = ext !! i.
Proof.
  rewrite lookup_app_r by (rewrite length_alter; lia).
  f_equal. rewrite length_alter. lia.
Qed.

Lemma next_of_extended_prev :
  next_of (alter (link dsts) prev h ++ ext) prev = next_of h prev ++ dsts.
Proof.
  unfold next_of. rewrite lookup_extended_prev.
  destruct (lookup_lt_is_Some_2 h prev Hprev) as [st ->]. done.
Qed.

Lemma kind_of_extended_prev :
  kind_of (alter (link dsts) prev h ++ ext) prev = kind_of h prev.
Proof.
  unfold kind_of. rewrite lookup_extended_prev.
  by destruct (h !! prev).
Qed.

Lemma loop_of_extended_prev :
  loop_of (alter (link dsts) prev h ++ ext) prev = loop_of h prev.
Proof.
  unfold loop_of. rewrite lookup_extended_prev.
  by destruct (h !! prev).
Qed.

End Extended.

Lemma quantified_result_intro c qk dsts prev h :
  prev < length h →
  quantified_result c qk dsts prev h
    (S (length h),
     alter (link dsts) prev h
       ++ [mkState (atom_kind c) [S (length h)] None;
           mkState qk [] (Some (length h))]).
Proof.
  intros Hprev. unfold quantified_result. simpl.
  set (ext := [_; _]).
  assert (∀ i, (alter (link dsts) prev h ++ ext) !! (length h + i) = ext !! i)
    as Hnew by (intros; by apply lookup_extended_new).
  pose proof (Hnew 0) as H0. pose proof (Hnew 1) as H1.
  rewrite Nat.add_0_r in H0. replace (length h + 1) with (S (length h)) in H1
    by lia.
  unfold kind_of, next_of, loop_of at 1. rewrite H0, H1.
  split_and!; try done.
  - rewrite length_app, length_alter. simpl. lia.
  - by apply next_of_extended_prev.
  - by apply kind_of_extended_prev.
  - by apply loop_of_extended_prev.
  - intros q Hq Hne. by apply lookup_extended_old.
Qed.

Lemma tokenize_head c rest :
  ∃ quant ts, tokenize (c :: rest) = mkToken c quant :: ts.
Proof.
  destruct rest as [|quant rest']; simpl; [by eauto|].
  destruct (is_quantifier quant); eauto.
Qed.

(** ** The scenarios of the module's self-test *)

Example scenario_many_a :
  check_string elements 9 (RegexFSM_init "a*4.+hi") "aaaaaa4uhi" = Ret true.
Proof. vm_compute. reflexivity. Qed.

Example scenario_no_a :
  check_string elements 9 (RegexFSM_init "a*4.+hi") "4uhi" = Ret true.
Proof. vm_compute. reflexivity. Qed.

Example scenario_meow :
  check_string elements 9 (RegexFSM_init "a*4.+hi") "meow" = Ret false.
Proof. vm_compute. reflexivity. Qed.

Example scenario_slash :
  check_string elements 9 (RegexFSM_init "a*4.+hi") "a4/hi" = Ret true.
Proof. vm_compute. reflexivity. Qed.

Example scenario_x_plus :
  check_string elements 4 (RegexFSM_init "x+") "" = Ret false ∧
  check_string elements 4 (RegexFSM_init "x+") "x" = Ret true ∧
  check_string elements 4 (RegexFSM_init "x+") "xxx" = Ret true.
Proof. vm_compute. done. Qed.

(** ** The properties of the specification *)

(** C1: for every pattern and input, [check_string] returns a boolean that is
    true exactly when the whole input, read from its first to its last
    character, drives the compiled automaton from the start state to the
    termination state under the transition and epsilon rules; and on the
    automaton of "a*4.+hi" the input "4hi" is rejected. *)
Theorem check_string_full_match
    (order : gset nat → list nat)
    (order_perm : ∀ X : gset nat, order X ≡ₚ elements X) (fuel : nat) :
  (∀ pattern s : string,
     2 + String.length pattern ≤ fuel →
     ∃ b, check_string order fuel (RegexFSM_init pattern) s = Ret b ∧
          (b = true ↔
           accepts (RegexFSM_init pattern) (list_ascii_of_string s))) ∧
  (9 ≤ fuel →
   check_string order fuel (RegexFSM_init "a*4.+hi") "4hi" = Ret false).
Proof.
  split.
  - intros pattern s Hfuel. apply check_chars_spec; [done| |].
    + apply init_chars_wf.
    + by rewrite length_RegexFSM_init.
  - intros Hfuel.
    by rewrite (check_string_matches order order_perm) by (simpl; lia).
Qed.

Lemma check_string_full_match_witness :
  (∃ b, check_string elements 9 (RegexFSM_init "a*4.+hi") "4uhi" = Ret b ∧
        (b = true ↔
         accepts (RegexFSM_init "a*4.+hi") (list_ascii_of_string "4uhi"))) ∧
  check_string elements 9 (RegexFSM_init "a*4.+hi") "4hi" = Ret false.
Proof.
  destruct (check_string_full_match elements elements_order 9) as [Hall Hone].
  split; [apply Hall; simpl; lia|apply Hone; lia].
Defined.

(** C2, as stated, fails: the pattern "." has no quantifier and accepts the
    input "a", which is not equal to it. *)
Lemma exact_equality_counterexample :
  quantifier_free "." ∧
  check_string elements 3 (RegexFSM_init ".") "a" = Ret true ∧
  "a"%string ≠ "."%string.
Proof.
  split_and!.
  - by repeat constructor.
  - vm_compute. reflexivity.
  - done.
Qed.

(** C2, amended: for a pattern without quantifier characters,
    [check_string] returns true exactly on the inputs of the same length
    that agree with the pattern at every position where the pattern is not
    [.]; when the pattern has no [.] either, exactly on the pattern itself. *)
Theorem check_string_quantifier_free
    (order : gset nat → list nat)
    (order_perm : ∀ X : gset nat, order X ≡ₚ elements X) (fuel : nat)
    (pattern s : string) :
  quantifier_free pattern →
  2 + String.length pattern ≤ fuel →
  ∃ b, check_string order fuel (RegexFSM_init pattern) s = Ret b ∧
       (b = true ↔
        Forall2 (λ c ch, c = "."%char ∨ ch = c)
          (list_ascii_of_string pattern) (list_ascii_of_string s)) ∧
       ("."%char ∉ list_ascii_of_string pattern → (b = true ↔ s = pattern)).
Proof.
  intros Hfree Hfuel. eexists. split; [by apply check_string_matches|].
  rewrite tokenize_quantifier_free, matches_plain by done.
  split; [done|]. intros Hdot. rewrite Forall2_literal by done. split.
  - intros Heq. apply (f_equal string_of_list_ascii) in Heq.
    by rewrite !string_of_list_ascii_of_string in Heq.
  - by intros ->.
Qed.

Lemma check_string_quantifier_free_witness :
  ∃ b, check_string elements 5 (RegexFSM_init "a.c") "abc" = Ret b ∧
       (b = true ↔
        Forall2 (λ c ch, c = "."%char ∨ ch = c)
          (list_ascii_of_string "a.c") (list_ascii_of_string "abc")) ∧
       ("."%char ∉ list_ascii_of_string "a.c" →
        (b = true ↔ "abc"%string = "a.c"%string)).
Proof.
  apply (check_string_quantifier_free elements elements_order 5 "a.c" "abc").
  - by repeat constructor.
  - simpl. lia.
Defined.

(** C3: when the builder has applied a [+] to some atom, that is, when the
    automaton holds a [PlusState], the empty string is rejected. *)
Theorem check_string_plus_rejects_empty
    (order : gset nat → list nat)
    (order_perm : ∀ X : gset nat, order X ≡ₚ elements X) (fuel : nat)
    (pattern : string) :
  (∃ q, kind_of (fsm_heap (RegexFSM_init pattern)) q = Some PlusState) →
  2 + String.length pattern ≤ fuel →
  check_string order fuel (RegexFSM_init pattern) "" = Ret false.
Proof.
  intros Hplus Hfuel. rewrite check_string_matches by done. f_equal.
  apply plus_state_iff_token in Hplus.
  destruct (matches _ _) eqn:Hm; [|done].
  apply matches_nil in Hm. apply Exists_exists in Hplus as (t & Ht & Hq).
  rewrite Forall_forall in Hm. specialize (Hm t Ht). congruence.
Qed.

Lemma check_string_plus_rejects_empty_witness :
  check_string elements 4 (RegexFSM_init "x+") "" = Ret false.
Proof.
  apply (check_string_plus_rejects_empty elements elements_order 4 "x+").
  - exists 3. reflexivity.
  - simpl. lia.
Defined.

(** C4: on the empty input [check_string] returns true exactly when the
    termination state is reachable from the start state by epsilon moves
    alone, which is the case exactly when every atom of the pattern carries a
    [*] (in particular for the empty pattern). *)
Theorem check_string_empty_input
    (order : gset nat → list nat)
    (order_perm : ∀ X : gset nat, order X ≡ₚ elements X) (fuel : nat)
    (pattern : string) :
  2 + String.length pattern ≤ fuel →
  ∃ b, check_string order fuel (RegexFSM_init pattern) "" = Ret b ∧
       (b = true ↔
        rtc (eps_edge (fsm_heap (RegexFSM_init pattern)))
          (start_state (RegexFSM_init pattern))
          (term_state (RegexFSM_init pattern))) ∧
       (b = true ↔
        Forall (λ t, tok_quant t = QStar)
          (tokenize (list_ascii_of_string pattern))).
Proof.
  intros Hfuel. eexists. split; [by apply check_string_matches|]. simpl.
  split; [|apply matches_nil].
  rewrite <-drives_nil_rtc. symmetry. apply accepts_matches.
Qed.

Lemma check_string_empty_input_witness :
  ∃ b, check_string elements 6 (RegexFSM_init "a*.*") "" = Ret b ∧
       (b = true ↔
        rtc (eps_edge (fsm_heap (RegexFSM_init "a*.*")))
          (start_state (RegexFSM_init "a*.*"))
          (term_state (RegexFSM_init "a*.*"))) ∧
       (b = true ↔
        Forall (λ t, tok_quant t = QStar)
          (tokenize (list_ascii_of_string "a*.*"))).
Proof.
  apply (check_string_empty_input elements elements_order 6 "a*.*").
  simpl. lia.
Defined.

(** C5: with the loops allowed one iteration per state of the automaton,
    [check_string] returns a boolean on every input, and [closure], started
    on any set of states of the automaton, leaves its loop with an empty
    stack having put no state on the stack twice. *)
Theorem check_string_terminates
    (order : gset nat → list nat)
    (order_perm : ∀ X : gset nat, order X ≡ₚ elements X) (fuel : nat)
    (pattern : string) :
  2 + String.length pattern ≤ fuel →
  (∀ s, ∃ b : bool, check_string order fuel (RegexFSM_init pattern) s = Ret b) ∧
  (∀ states : gset nat,
     states ⊆ allocated (fsm_heap (RegexFSM_init pattern)) →
     ∃ cv, closure_run order fuel (fsm_heap (RegexFSM_init pattern)) states
           = Ret cv ∧
           stack cv = [] ∧ NoDup (pushed cv) ∧
           (∀ x, x ∈ pushed cv ↔ x ∈ result cv)).
Proof.
  intros Hfuel. split.
  - intros s. eexists. by apply check_string_matches.
  - intros states Hsub.
    destruct (closure_run_spec order order_perm fuel
                (fsm_heap (RegexFSM_init pattern)) states)
      as (cv & Hrun & Hinv & Hstk); [|done| |].
    + apply init_chars_wf.
    + by rewrite length_RegexFSM_init.
    + exists cv. split_and!; [done..| |]; apply Hinv.
Qed.

Lemma check_string_terminates_witness :
  (∀ s, ∃ b : bool,
     check_string elements 9 (RegexFSM_init "a*4.+hi") s = Ret b) ∧
  (∀ states : gset nat,
     states ⊆ allocated (fsm_heap (RegexFSM_init "a*4.+hi")) →
     ∃ cv, closure_run elements 9 (fsm_heap (RegexFSM_init "a*4.+hi")) states
           = Ret cv ∧
           stack cv = [] ∧ NoDup (pushed cv) ∧
           (∀ x, x ∈ pushed cv ↔ x ∈ result cv)).
Proof.
  apply (check_string_terminates elements elements_order 9 "a*4.+hi").
  simpl. lia.
Defined.

(** C6: a [StarState] or [PlusState] of a built automaton accepts no
    character itself; it passes on by epsilon moves, and the only move on
    which it reads a character is the re-entry into itself. *)
Theorem quantifier_states_never_match (pattern : string) (q : nat) (st : State)
    (ch : ascii) :
  fsm_heap (RegexFSM_init pattern) !! q = Some st →
  kind st = StarState ∨ kind st = PlusState →
  check_self st ch = false ∧
  is_epsilon_kind (kind st) = true ∧
  (∀ n, move (fsm_heap (RegexFSM_init pattern)) q (Some ch) n → n = q).
Proof.
  intros Hq Hk.
  assert (check_self st ch = false) as Hno.
  { unfold check_self. by destruct Hk as [-> | ->]. }
  split_and!; [done|by destruct Hk as [-> | ->]|].
  intros n Hm. apply (move_char_at _ q st Hq) in Hm.
  rewrite Hno in Hm. naive_solver.
Qed.

Lemma quantifier_states_never_match_witness :
  check_self (mkState StarState [4] (Some 2)) "a" = false ∧
  is_epsilon_kind StarState = true ∧
  (∀ n, move (fsm_heap (RegexFSM_init "a*4.+hi")) 3 (Some "a"%char) n → n = 3).
Proof.
  apply (quantifier_states_never_match "a*4.+hi" 3
           (mkState StarState [4] (Some 2)) "a").
  - reflexivity.
  - left. reflexivity.
Defined.

(** C7: in every built automaton no transition enters the start state, the
    start state is not reachable from any other state, the termination state
    has no outgoing transition, and every other state lies on a path of
    transitions from the start state. *)
Theorem init_graph_shape (pattern : string) :
  (∀ q, ¬ edge (fsm_heap (RegexFSM_init pattern)) q
            (start_state (RegexFSM_init pattern))) ∧
  (∀ q, q ≠ start_state (RegexFSM_init pattern) →
        ¬ rtc (edge (fsm_heap (RegexFSM_init pattern))) q
            (start_state (RegexFSM_init pattern))) ∧
  next_of (fsm_heap (RegexFSM_init pattern))
    (term_state (RegexFSM_init pattern)) = [] ∧
  (∀ q, q < length (fsm_heap (RegexFSM_init pattern)) →
        q ≠ start_state (RegexFSM_init pattern) →
        q ≠ term_state (RegexFSM_init pattern) →
        rtc (edge (fsm_heap (RegexFSM_init pattern)))
          (start_state (RegexFSM_init pattern)) q).
Proof.
  unfold RegexFSM_init. set (p := list_ascii_of_string pattern).
  assert (start_state (init_chars p) = 0) as Hs
    by by rewrite init_chars_layout.
  assert (term_state (init_chars p) = 1) as Ht
    by by rewrite init_chars_layout.
  rewrite Hs, Ht. split_and!.
  - apply init_chars_no_edge_into_start.
  - intros q Hne Hr. apply rtc_inv_r in Hr as [?|(y & _ & Hy)]; [done|].
    by apply init_chars_no_edge_into_start in Hy.
  - by rewrite init_chars_layout.
  - intros q Hq _ _. by apply init_chars_reachable.
Qed.

Lemma init_graph_shape_witness :
  rtc (edge (fsm_heap (RegexFSM_init "a*4.+hi")))
    (start_state (RegexFSM_init "a*4.+hi")) 6.
Proof.
  apply (init_graph_shape "a*4.+hi"); [simpl; lia|done|done].
Defined.

(** C8: an iteration that finds [*] behind its atom allocates the atom and
    the [StarState], adds the three transitions prev -> atom, atom -> star
    and prev -> star and no other, points [loop_state] of the star at the
    atom and makes the star the new [prev]; an iteration that finds [+] does
    the same with a [PlusState] but adds only prev -> atom and atom -> plus,
    so that no transition leads from [prev] to the plus. *)
Theorem quantified_atom_edges (c : ascii) (prev : nat) (h : heap)
    (rest : list ascii) :
  prev < length h →
  quantified_result c StarState [length h; S (length h)] prev h
    (quantified_atom c "*" prev h) ∧
  init_loop (c :: "*"%char :: rest) prev h
  = init_loop rest (quantified_atom c "*" prev h).1
      (quantified_atom c "*" prev h).2 ∧
  quantified_result c PlusState [length h] prev h
    (quantified_atom c "+" prev h) ∧
  init_loop (c :: "+"%char :: rest) prev h
  = init_loop rest (quantified_atom c "+" prev h).1
      (quantified_atom c "+" prev h).2 ∧
  (¬ edge h prev (S (length h)) →
   ¬ edge (quantified_atom c "+" prev h).2 prev (S (length h))).
Proof.
  intros Hprev.
  pose proof (quantified_result_intro c PlusState [length h] prev h Hprev)
    as Hplus.
  rewrite <-(quantified_atom_plus_heap c "+") in Hplus by done.
  split_and!.
  - rewrite quantified_atom_star_heap by done.
    by apply quantified_result_intro.
  - simpl. by destruct (quantified_atom c "*" prev h).
  - done.
  - simpl. by destruct (quantified_atom c "+" prev h).
  - intros Hno. unfold edge in *.
    destruct Hplus as (_ & _ & _ & _ & -> & _).
    rewrite elem_of_app, list_elem_of_singleton. intros [?|?]; [done|lia].
Qed.

Lemma quantified_atom_edges_witness :
  quantified_result "a" StarState [2; 3] 0
    [mkState StartState [] None; mkState TerminationState [] None]
    (quantified_atom "a" "*" 0
       [mkState StartState [] None; mkState TerminationState [] None]) ∧
  quantified_result "a" PlusState [2] 0
    [mkState StartState [] None; mkState TerminationState [] None]
    (quantified_atom "a" "+" 0
       [mkState StartState [] None; mkState TerminationState [] None]).
Proof.
  destruct (quantified_atom_edges "a" 0
    [mkState StartState [] None; mkState TerminationState [] None] [])
    as (Hstar & _ & Hplus & _); [simpl; lia|].
  split; [exact Hstar|exact Hplus].
Defined.

(** C9: in every built automaton each [StarState] and [PlusState] has its
    [loop_state] assigned, to the atom state whose only transition leads to
    it, and [check_string] never raises on reading [loop_state]. *)
Theorem loop_state_assigned (pattern : string) :
  (∀ q st,
     fsm_heap (RegexFSM_init pattern) !! q = Some st →
     kind st = StarState ∨ kind st = PlusState →
     ∃ atom sta c,
       loop_state st = Some atom ∧
       fsm_heap (RegexFSM_init pattern) !! atom = Some sta ∧
       kind sta = atom_kind c ∧ next_states sta = [q]) ∧
  (∀ (order : gset nat → list nat) (fuel : nat) (s : string),
     check_string order fuel (RegexFSM_init pattern) s ≠ AttributeError).
Proof.
  split.
  - intros q st Hq Hk. unfold RegexFSM_init in *.
    apply init_chars_lookup in Hq as [[-> ->]|[[-> ->]|(i & -> & Hi)]].
    + by destruct Hk.
    + by destruct Hk.
    + apply layout_state in Hi as (_ & _ & _ & H4).
      destruct (H4 Hk) as (j & sta & c & -> & Hl & Hj & Hc & Hn).
      exists (2 + j), sta, c. split_and!; [done| |done..].
      by rewrite init_chars_layout.
  - intros order fuel s. apply check_chars_no_error, init_chars_wf.
Qed.

Lemma loop_state_assigned_witness :
  ∃ atom sta c,
    loop_state (mkState PlusState [7] (Some 5)) = Some atom ∧
    fsm_heap (RegexFSM_init "a*4.+hi") !! atom = Some sta ∧
    kind sta = atom_kind c ∧ next_states sta = [6].
Proof.
  apply (loop_state_assigned "a*4.+hi"); [reflexivity|by right].
Defined.

(** C10: a pattern may begin with [*] or [+]: the loop over the index runs
    to its end without failing, the leading character becomes an ordinary
    literal state right behind the start state, a quantifier that follows it
    applies to it, and the automaton of "*ab" accepts "*ab" and nothing
    else. *)
Theorem leading_quantifier_is_literal :
  (∀ (c : ascii) (rest : string),
     c = "*"%char ∨ c = "+"%char →
     init_while (String.length (String c rest))
       (list_ascii_of_string (String c rest)) 0 0
       [mkState StartState [] None; mkState TerminationState [] None]
     = Some (init_loop (list_ascii_of_string (String c rest)) 0
               [mkState StartState [] None; mkState TerminationState [] None]) ∧
     kind_of (fsm_heap (RegexFSM_init (String c rest))) 2
     = Some (AsciiState c) ∧
     edge (fsm_heap (RegexFSM_init (String c rest))) 0 2 ∧
     (∀ quant rest',
        rest = String quant rest' → is_quantifier quant = true →
        kind_of (fsm_heap (RegexFSM_init (String c rest))) 3
        = Some (if bool_decide (quant = "*"%char)
                then StarState else PlusState) ∧
        loop_of (fsm_heap (RegexFSM_init (String c rest))) 3 = Some 2)) ∧
  (∀ (order : gset nat → list nat),
     (∀ X : gset nat, order X ≡ₚ elements X) →
     ∀ (fuel : nat) (s : string),
       5 ≤ fuel →
       check_string order fuel (RegexFSM_init "*ab") s
       = Ret (bool_decide (s = "*ab"%string))).
Proof.
  split.
  - intros c rest Hc.
    assert (atom_kind c = AsciiState c) as Hatom.
    { unfold atom_kind. by destruct Hc as [-> | ->]. }
    split_and!.
    + rewrite init_while_init_loop; [done|].
      rewrite length_list_ascii_of_string. lia.
    + unfold RegexFSM_init. rewrite init_chars_layout.
      destruct (tokenize_head c (list_ascii_of_string rest))
        as (quant & ts & Hts).
      simpl list_ascii_of_string. rewrite Hts. unfold kind_of.
      destruct quant; simpl; by rewrite Hatom.
    + unfold RegexFSM_init, edge. rewrite init_chars_layout.
      destruct (tokenize_head c (list_ascii_of_string rest))
        as (quant & ts & Hts).
      simpl list_ascii_of_string. rewrite Hts.
      destruct quant; simpl; set_solver.
    + intros quant rest' -> Hq.
      unfold RegexFSM_init. rewrite init_chars_layout. simpl. rewrite Hq.
      by case_bool_decide.
  - intros order order_perm fuel s Hfuel.
    rewrite (check_string_matches order order_perm) by (simpl; lia).
    f_equal.
    change (tokenize (list_ascii_of_string "*ab"))
      with ((λ c, mkToken c QNone) <$> list_ascii_of_string "*ab").
    destruct (matches _ (list_ascii_of_string s)) eqn:Hm; symmetry.
    + apply bool_decide_eq_true.
      apply matches_plain, Forall2_literal in Hm.
      * apply (f_equal string_of_list_ascii) in Hm.
        by rewrite !string_of_list_ascii_of_string in Hm.
      * simpl. rewrite !not_elem_of_cons. split_and!; try done.
        apply not_elem_of_nil.
    + apply bool_decide_eq_false. intros ->. by vm_compute in Hm.
Qed.

Lemma leading_quantifier_is_literal_witness :
  (kind_of (fsm_heap (RegexFSM_init "**")) 3 = Some StarState ∧
   loop_of (fsm_heap (RegexFSM_init "**")) 3 = Some 2) ∧
  check_string elements 5 (RegexFSM_init "*ab") "*ab" = Ret true.
Proof.
  destruct leading_quantifier_is_literal as [Hlead Hstar].
  split.
  - destruct (Hlead "*"%char "*"%string) as (_ & _ & _ & Hq); [by left|].
    apply (Hq "*"%char ""%string); reflexivity.
  - apply (Hstar elements elements_order 5 "*ab"%string). lia.
Defined.


(** * Further properties of the builder and the simulator *)

(** ** The reference matcher, declaratively *)

Lemma star_match_split c k s :
  star_match c k s = true ↔
  ∃ u v, s = u ++ v ∧ Forall (λ ch, atom_matches c ch = true) u ∧ k v = true.
Proof.
  split.
  - induction s as [|ch s IH]; rewrite star_match_unfold, orb_true_iff.
    + intros [Hk|?]; [|done]. by exists [], [].
    + rewrite andb_true_iff. intros [Hk|[Hch Hs]].
      * by exists [], (ch :: s).
      * destruct (IH Hs) as (u & v & -> & Hu & Hv).
        exists (ch :: u), v. split_and!; [done| |done]. by constructor.
  - intros (u & v & -> & Hu & Hv).
    induction Hu as [|ch u Hch _ IH]; simpl.
    + rewrite star_match_unfold, Hv. done.
    + fold (star_match c k (u ++ v)). rewrite Hch, IH. apply orb_true_r.
Qed.

Lemma Forall2_cons_l_iff {A B} (P : A → B → Prop) x l k :
  Forall2 P (x :: l) k ↔ ∃ y k', P x y ∧ Forall2 P l k' ∧ k = y :: k'.
Proof.
  split; [apply Forall2_cons_inv_l|].
  intros (y & k' & ? & ? & ->). by constructor.
Qed.

Lemma matches_splits ts s : matches ts s = true ↔ splits ts s.
Proof.
  revert s. induction ts as [|[c quant] ts IH]; intros s.
  - simpl. split.
    + destruct s; [|done]. intros _. exists []. by split.
    + intros (parts & Hparts & ->). by inversion Hparts.
  - unfold splits. setoid_rewrite Forall2_cons_l_iff.
    destruct quant; simpl.
    + split.
      * destruct s as [|ch s]; [done|]. rewrite andb_true_iff.
        intros [Hch (parts & Hparts & ->)%IH].
        exists ([ch] :: parts). split; [|done].
        exists [ch], parts. split_and!; try done.
        split; [by repeat constructor|done].
      * intros (parts & (part & parts' & [Hall Hlen] & Hparts & ->) & ->).
        simpl in *. destruct part as [|ch [|? ?]]; simpl in Hlen; try lia.
        simpl. apply andb_true_iff. split; [by inversion Hall|].
        apply IH. by exists parts'.
    + rewrite star_match_split. split.
      * intros (u & v & -> & Hu & (parts & Hparts & ->)%IH).
        exists (u :: parts). split; [|done].
        exists u, parts. by split_and!.
      * intros (parts & (part & parts' & [Hall _] & Hparts & ->) & ->).
        simpl in *. exists part, (concat parts'). split_and!; [done..|].
        apply IH. by exists parts'.
    + split.
      * destruct s as [|ch s]; [done|]. rewrite andb_true_iff.
        intros [Hch (u & v & -> & Hu & (parts & Hparts & ->)%IH)
                  %star_match_split].
        exists ((ch :: u) :: parts). split; [|done].
        exists (ch :: u), parts. split_and!; try done.
        split; [by constructor|simpl; lia].
      * intros (parts & (part & parts' & [Hall Hlen] & Hparts & ->) & ->).
        simpl in *. destruct part as [|ch u]; simpl in Hlen; [lia|].
        simpl. apply andb_true_iff. inversion Hall; subst.
        split; [done|]. apply star_match_split.
        exists u, (concat parts'). split_and!; [done..|].
        apply IH. by exists parts'.
Qed.

Lemma splits_app ts1 ts2 s :
  splits (ts1 ++ ts2) s ↔
  ∃ s1 s2, s = s1 ++ s2 ∧ splits ts1 s1 ∧ splits ts2 s2.
Proof.
  unfold splits. split.
  - intros (parts & Hparts & ->).
    apply Forall2_app_inv_l in Hparts as (p1 & p2 & H1 & H2 & ->).
    exists (concat p1), (concat p2). rewrite concat_app. eauto 10.
  - intros (s1 & s2 & -> & (p1 & H1 & ->) & (p2 & H2 & ->)).
    exists (p1 ++ p2). rewrite concat_app. split; [|done].
    by apply Forall2_app.
Qed.

Lemma tokenize_plain c rest :
  no_quantifier_ahead rest →
  tokenize (c :: rest) = mkToken c QNone :: tokenize rest.
Proof.
  destruct rest as [|quant rest']; [done|]. simpl. by intros ->.
Qed.

(** Cutting a pattern in front of a character that is not a quantifier cuts
    the sequence of loop iterations at the same place. *)
Lemma tokenize_app p1 p2 :
  no_quantifier_ahead p2 →
  tokenize (p1 ++ p2) = tokenize p1 ++ tokenize p2.
Proof.
  intros Hp2. pose proof (loop_view_all p1) as Hv.
  induction Hv as [|c quant rest Hq _ IH|c rest Hno _ IH].
  - done.
  - simpl. rewrite Hq. by rewrite IH.
  - rewrite tokenize_plain by done. simpl app.
    rewrite tokenize_plain; [by rewrite IH|].
    destruct rest; [done|]. exact Hno.
Qed.

Lemma list_ascii_of_string_app (s1 s2 : string) :
  list_ascii_of_string (s1 +:+ s2)
  = list_ascii_of_string s1 ++ list_ascii_of_string s2.
Proof. induction s1; simpl; by f_equal. Qed.

Lemma list_ascii_of_string_inj (s1 s2 : string) :
  list_ascii_of_string s1 = list_ascii_of_string s2 → s1 = s2.
Proof.
  intros H. apply (f_equal string_of_list_ascii) in H.
  by rewrite !string_of_list_ascii_of_string in H.
Qed.

Lemma splits_min_length ts s : splits ts s → mandatory_atoms ts ≤ length s.
Proof.
  intros (parts & Hparts & ->).
  induction Hparts as [|[c quant] part ts parts [_ Hlen] _ IH]; simpl; [lia|].
  rewrite length_app. destruct quant; simpl in *; lia.
Qed.

Lemma matches_nil_pattern s : matches [] s = true ↔ s = [].
Proof. by destruct s. Qed.

Lemma reverse_elements_order (X : gset nat) :
  reverse (elements X) ≡ₚ elements X.
Proof. apply reverse_Permutation. Qed.

Lemma length_string_app (s1 s2 : string) :
  String.length (s1 +:+ s2) = String.length s1 + String.length s2.
Proof.
  by rewrite <-!length_list_ascii_of_string, list_ascii_of_string_app,
    length_app.
Qed.

(** ** The accepted language *)

(** X1: [check_string] returns true exactly on the strings that can be cut
    into one part per loop iteration of the builder, each part made of
    characters the iteration's atom accepts: one character without
    quantifier, any number behind [*], at least one behind [+]. *)
Theorem check_string_splits
    (order : gset nat → list nat)
    (order_perm : ∀ X : gset nat, order X ≡ₚ elements X) (fuel : nat)
    (pattern s : string) :
  2 + String.length pattern ≤ fuel →
  ∃ b, check_string order fuel (RegexFSM_init pattern) s = Ret b ∧
       (b = true ↔
        splits (tokenize (list_ascii_of_string pattern))
          (list_ascii_of_string s)).
Proof.
  intros Hfuel. eexists. split; [by apply check_string_matches|].
  apply matches_splits.
Qed.

Lemma check_string_splits_witness :
  ∃ b, check_string elements 9 (RegexFSM_init "a*4.+hi") "a4/hi" = Ret b ∧
       (b = true ↔
        splits (tokenize (list_ascii_of_string "a*4.+hi"))
          (list_ascii_of_string "a4/hi")).
Proof.
  apply (check_string_splits elements elements_order 9 "a*4.+hi" "a4/hi").
  simpl. lia.
Defined.

(** X2: when the second of two patterns does not begin with [*] or [+], the
    automaton of their concatenation accepts exactly the concatenations of a
    string accepted for the first with a string accepted for the second. *)
Theorem check_string_concat
    (order : gset nat → list nat)
    (order_perm : ∀ X : gset nat, order X ≡ₚ elements X) (fuel : nat)
    (p1 p2 s : string) :
  no_quantifier_ahead (list_ascii_of_string p2) →
  2 + String.length (p1 +:+ p2) ≤ fuel →
  check_string order fuel (RegexFSM_init (p1 +:+ p2)) s = Ret true ↔
  ∃ s1 s2 : string,
    s = s1 +:+ s2 ∧
    check_string order fuel (RegexFSM_init p1) s1 = Ret true ∧
    check_string order fuel (RegexFSM_init p2) s2 = Ret true.
Proof.
  intros Hp2 Hfuel. rewrite length_string_app in Hfuel.
  rewrite (check_string_matches order order_perm)
    by (rewrite length_string_app; lia).
  rewrite list_ascii_of_string_app, tokenize_app by done.
  assert (∀ b : bool, Ret b = Ret true ↔ b = true) as Hret.
  { intros b. split; [by intros [= ->]|by intros ->]. }
  rewrite Hret, matches_splits, splits_app. split.
  - intros (u & v & Hs & Hu & Hv).
    exists (string_of_list_ascii u), (string_of_list_ascii v).
    rewrite !(check_string_matches order order_perm) by lia.
    rewrite !list_ascii_of_string_of_list_ascii, !Hret, !matches_splits.
    split_and!; [|done..].
    apply list_ascii_of_string_inj.
    by rewrite list_ascii_of_string_app, !list_ascii_of_string_of_list_ascii.
  - intros (s1 & s2 & -> & H1 & H2).
    rewrite (check_string_matches order order_perm) in H1, H2 by lia.
    rewrite Hret, matches_splits in H1, H2.
    exists (list_ascii_of_string s1), (list_ascii_of_string s2).
    by rewrite list_ascii_of_string_app.
Qed.

Lemma check_string_concat_witness :
  check_string elements 7 (RegexFSM_init ("a*" +:+ "b.+")) "aabcc" = Ret true ↔
  ∃ s1 s2 : string,
    "aabcc"%string = s1 +:+ s2 ∧
    check_string elements 7 (RegexFSM_init "a*") s1 = Ret true ∧
    check_string elements 7 (RegexFSM_init "b.+") s2 = Ret true.
Proof.
  apply (check_string_concat elements elements_order 7 "a*" "b.+" "aabcc").
  - reflexivity.
  - simpl. lia.
Defined.

(** X3: on any well-formed automaton the value of [check_string] does not
    depend on the order in which the sets of states are iterated. *)
Theorem check_string_order_independent
    (order1 order2 : gset nat → list nat)
    (order1_perm : ∀ X : gset nat, order1 X ≡ₚ elements X)
    (order2_perm : ∀ X : gset nat, order2 X ≡ₚ elements X)
    (fuel1 fuel2 : nat) (fsm : RegexFSM) (s : string) :
  fsm_wf fsm →
  length (fsm_heap fsm) ≤ fuel1 → length (fsm_heap fsm) ≤ fuel2 →
  check_string order1 fuel1 fsm s = check_string order2 fuel2 fsm s.
Proof.
  intros Hwf H1 H2. unfold check_string.
  destruct (check_chars_spec order1 order1_perm fuel1 fsm
              (list_ascii_of_string s) Hwf H1) as (b1 & -> & Hb1).
  destruct (check_chars_spec order2 order2_perm fuel2 fsm
              (list_ascii_of_string s) Hwf H2) as (b2 & -> & Hb2).
  f_equal. destruct b1, b2; naive_solver.
Qed.

Lemma check_string_order_independent_witness :
  check_string elements 5 (RegexFSM_init "a*b") "aab"
  = check_string (λ X, reverse (elements X)) 7 (RegexFSM_init "a*b") "aab".
Proof.
  apply (check_string_order_independent elements (λ X, reverse (elements X))
           elements_order reverse_elements_order 5 7 (RegexFSM_init "a*b")).
  - apply init_chars_wf.
  - simpl. lia.
  - simpl. lia.
Defined.

(** X4: an accepted string has at least as many characters as the pattern
    has atoms without [*]. *)
Theorem accepted_min_length
    (order : gset nat → list nat)
    (order_perm : ∀ X : gset nat, order X ≡ₚ elements X) (fuel : nat)
    (pattern s : string) :
  2 + String.length pattern ≤ fuel →
  check_string order fuel (RegexFSM_init pattern) s = Ret true →
  mandatory_atoms (tokenize (list_ascii_of_string pattern)) ≤ String.length s.
Proof.
  intros Hfuel. rewrite (check_string_matches order order_perm) by done.
  intros [= Hm]. rewrite <-length_list_ascii_of_string.
  by apply splits_min_length, matches_splits.
Qed.

Lemma accepted_min_length_witness :
  mandatory_atoms (tokenize (list_ascii_of_string "a*4.+hi"))
  ≤ String.length "aa4uuhi".
Proof.
  apply (accepted_min_length elements elements_order 9 "a*4.+hi" "aa4uuhi").
  - simpl. lia.
  - vm_compute. reflexivity.
Defined.

(** X5: a single atom behind [*] accepts exactly the strings made of
    characters the atom accepts, the empty string included; behind [+] the
    same strings except the empty one. *)
Theorem check_string_single_atom
    (order : gset nat → list nat)
    (order_perm : ∀ X : gset nat, order X ≡ₚ elements X) (fuel : nat)
    (c : ascii) (s : string) :
  4 ≤ fuel →
  (∃ b, check_string order fuel (RegexFSM_init (String c "*")) s = Ret b ∧
        (b = true ↔
         Forall (λ ch, c = "."%char ∨ ch = c) (list_ascii_of_string s))) ∧
  (∃ b, check_string order fuel (RegexFSM_init (String c "+")) s = Ret b ∧
        (b = true ↔
         s ≠ ""%string ∧
         Forall (λ ch, c = "."%char ∨ ch = c) (list_ascii_of_string s))).
Proof.
  intros Hfuel.
  assert (∀ l, Forall (λ ch, atom_matches c ch = true) l
               ↔ Forall (λ ch, c = "."%char ∨ ch = c) l) as Hatom.
  { intros l. apply Forall_proper; [|done]. intros ch. apply atom_matches_spec. }
  split; eexists;
    (split; [apply (check_string_matches order order_perm); simpl; lia|]);
    simpl.
  - rewrite star_match_split. setoid_rewrite matches_nil_pattern.
    rewrite <-Hatom. split.
    + intros (u & v & -> & Hu & ->). by rewrite app_nil_r.
    + intros Hall. exists (list_ascii_of_string s), [].
      by rewrite app_nil_r.
  - destruct s as [|ch s]; simpl; [naive_solver|].
    rewrite andb_true_iff, star_match_split, <-Hatom, Forall_cons.
    setoid_rewrite matches_nil_pattern. split.
    + intros (Hch & u & v & -> & Hu & ->). by rewrite app_nil_r.
    + intros (_ & Hch & Hall). split; [done|].
      exists (list_ascii_of_string s), []. by rewrite app_nil_r.
Qed.

Lemma check_string_single_atom_witness :
  (∃ b, check_string elements 4 (RegexFSM_init (String "." "*")) "x y" = Ret b ∧
        (b = true ↔
         Forall (λ ch, "."%char = "."%char ∨ ch = "."%char)
           (list_ascii_of_string "x y"))) ∧
  (∃ b, check_string elements 4 (RegexFSM_init (String "." "+")) "x y" = Ret b ∧
        (b = true ↔
         "x y"%string ≠ ""%string ∧
         Forall (λ ch, "."%char = "."%char ∨ ch = "."%char)
           (list_ascii_of_string "x y"))).
Proof.
  apply (check_string_single_atom elements elements_order 4 "." "x y"). lia.
Defined.

(** X6: the automaton of the empty pattern accepts the empty string and no
    other. *)
Theorem check_string_empty_pattern
    (order : gset nat → list nat)
    (order_perm : ∀ X : gset nat, order X ≡ₚ elements X) (fuel : nat)
    (s : string) :
  2 ≤ fuel →
  check_string order fuel (RegexFSM_init "") s
  = Ret (bool_decide (s = ""%string)).
Proof.
  intros Hfuel. rewrite (check_string_matches order order_perm) by done.
  by destruct s.
Qed.

Lemma check_string_empty_pattern_witness :
  check_string elements 2 (RegexFSM_init "") "a"
  = Ret (bool_decide ("a"%string = ""%string)).
Proof.
  apply (check_string_empty_pattern elements elements_order 2 "a"). lia.
Defined.

(** X7: a quantifier character that directly follows a quantified atom is
    not a second quantifier: the pattern [c q1 q2] with [q1], [q2] among [*]
    and [+] accepts exactly a run of characters accepted by [c] (non-empty
    when [q1] is [+]) followed by the literal character [q2]. *)
Theorem check_string_double_quantifier
    (order : gset nat → list nat)
    (order_perm : ∀ X : gset nat, order X ≡ₚ elements X) (fuel : nat)
    (c q1 q2 : ascii) (s : string) :
  is_quantifier q1 = true → is_quantifier q2 = true →
  5 ≤ fuel →
  ∃ b, check_string order fuel
         (RegexFSM_init (String c (String q1 (String q2 "")))) s = Ret b ∧
       (b = true ↔
        ∃ run, list_ascii_of_string s = run ++ [q2] ∧
               Forall (λ ch, c = "."%char ∨ ch = c) run ∧
               (q1 = "+"%char → run ≠ [])).
Proof.
  intros Hq1 Hq2 Hfuel.
  eexists. split; [apply (check_string_matches order order_perm); simpl; lia|].
  assert (∀ l, Forall (λ ch, atom_matches c ch = true) l
               ↔ Forall (λ ch, c = "."%char ∨ ch = c) l) as Hatom.
  { intros l. apply Forall_proper; [|done]. intros ch. apply atom_matches_spec. }
  assert (∀ v, matches [mkToken q2 QNone] v = true ↔ v = [q2]) as Hlit.
  { intros [|ch [|? ?]]; simpl; try done.
    - rewrite andb_true_r, atom_matches_spec.
      destruct (is_quantifier_cases q2 Hq2) as [-> | ->]; naive_solver.
    - by rewrite andb_false_r. }
  simpl. rewrite Hq1.
  destruct (is_quantifier_cases q1 Hq1) as [-> | ->]; simpl.
  - rewrite star_match_split. setoid_rewrite Hlit. setoid_rewrite Hatom.
    naive_solver.
  - destruct (list_ascii_of_string s) as [|ch l]; simpl.
    + split; [done|]. intros (run & Hrun & _). by destruct run.
    + rewrite andb_true_iff, star_match_split, atom_matches_spec.
      setoid_rewrite Hlit. setoid_rewrite Hatom. split.
      * intros (Hch & u & v & -> & Hu & ->). exists (ch :: u).
        split_and!; [done|by constructor|done].
      * intros (run & Hrun & Hall & Hne). destruct run as [|ch' run].
        { by destruct Hne. }
        simpl in Hrun. injection Hrun as -> ->. inversion Hall; subst.
        split; [done|]. by exists run, [q2].
Qed.

Lemma check_string_double_quantifier_witness :
  ∃ b, check_string elements 5 (RegexFSM_init "a**") "aa*" = Ret b ∧
       (b = true ↔
        ∃ run, list_ascii_of_string "aa*" = run ++ ["*"%char] ∧
               Forall (λ ch, "a"%char = "."%char ∨ ch = "a"%char) run ∧
               ("*"%char = "+"%char → run ≠ [])).
Proof.
  apply (check_string_double_quantifier elements elements_order 5
           "a" "*" "*" "aa*"); [reflexivity|reflexivity|lia].
Defined.

(** X8: the four assertions of the self-test hold whatever the iteration
    order of the sets is. *)
Theorem self_test_passes
    (order : gset nat → list nat)
    (order_perm : ∀ X : gset nat, order X ≡ₚ elements X) (fuel : nat) :
  9 ≤ fuel →
  self_test order fuel = [Ret true; Ret true; Ret false; Ret true].
Proof.
  intros Hfuel. unfold self_test.
  by rewrite !(check_string_matches order order_perm) by (simpl; lia).
Qed.

Lemma self_test_passes_witness :
  self_test (λ X, reverse (elements X)) 9
  = [Ret true; Ret true; Ret false; Ret true].
Proof.
  apply (self_test_passes (λ X, reverse (elements X)) reverse_elements_order 9).
  lia.
Defined.

(** ** The epsilon closure *)

(** X9: on a set of states of a built automaton, [closure] returns the
    smallest set that contains the given states and is closed under the
    transitions of its [StartState], [StarState] and [PlusState] members;
    applied to its own result it returns that result. *)
Theorem closure_least_closed
    (order : gset nat → list nat)
    (order_perm : ∀ X : gset nat, order X ≡ₚ elements X) (fuel : nat)
    (pattern : string) (states : gset nat) :
  2 + String.length pattern ≤ fuel →
  states ⊆ allocated (fsm_heap (RegexFSM_init pattern)) →
  ∃ R, closure order fuel (fsm_heap (RegexFSM_init pattern)) states = Ret R ∧
       states ⊆ R ∧
       (∀ q n, q ∈ R → is_epsilon (fsm_heap (RegexFSM_init pattern)) q = true →
               n ∈ next_of (fsm_heap (RegexFSM_init pattern)) q → n ∈ R) ∧
       (∀ R' : gset nat,
          states ⊆ R' →
          (∀ q n, q ∈ R' →
                  is_epsilon (fsm_heap (RegexFSM_init pattern)) q = true →
                  n ∈ next_of (fsm_heap (RegexFSM_init pattern)) q → n ∈ R') →
          R ⊆ R') ∧
       closure order fuel (fsm_heap (RegexFSM_init pattern)) R = Ret R.
Proof.
  intros Hfuel Hsub. set (h := fsm_heap (RegexFSM_init pattern)) in *.
  assert (heap_closed h) as Hc by apply init_chars_wf.
  assert (length h ≤ fuel) as Hlen
    by (subst h; by rewrite length_RegexFSM_init).
  destruct (closure_spec order order_perm fuel h states)
    as (R & HR & Hspec); [done..|].
  assert (∀ q n, q ∈ R → is_epsilon h q = true → n ∈ next_of h q → n ∈ R)
    as Hclosed.
  { intros q n Hq Heps Hn. apply Hspec in Hq as (q0 & Hq0 & Hr).
    apply Hspec. exists q0. split; [done|].
    eapply rtc_r; [done|]. by constructor. }
  exists R. split_and!; [done| |done| |].
  - intros x Hx. apply Hspec. by exists x.
  - intros R' Hsub' Hclosed' x Hx. apply Hspec in Hx as (q & Hq & Hr).
    assert (q ∈ R') as Hin by by apply Hsub'.
    clear Hq. induction Hr as [|a b c Hab _ IH]; [done|].
    apply IH. inversion Hab; subst. by eapply Hclosed'.
  - destruct (closure_spec order order_perm fuel h R)
      as (R2 & HR2 & Hspec2); [done|by eapply closure_allocated|done|].
    rewrite HR2. f_equal. apply set_eq. intros x. rewrite Hspec2. split.
    + intros (q & Hq & Hr). induction Hr as [|a b c Hab _ IH]; [done|].
      apply IH. inversion Hab; subst. by eapply Hclosed.
    + intros Hx. by exists x.
Qed.

Lemma closure_least_closed_witness :
  ∃ R, closure elements 5 (fsm_heap (RegexFSM_init "a*b")) {[3]} = Ret R ∧
       {[3]} ⊆ R ∧
       (∀ q n, q ∈ R → is_epsilon (fsm_heap (RegexFSM_init "a*b")) q = true →
               n ∈ next_of (fsm_heap (RegexFSM_init "a*b")) q → n ∈ R) ∧
       (∀ R' : gset nat,
          {[3]} ⊆ R' →
          (∀ q n, q ∈ R' →
                  is_epsilon (fsm_heap (RegexFSM_init "a*b")) q = true →
                  n ∈ next_of (fsm_heap (RegexFSM_init "a*b")) q → n ∈ R') →
          R ⊆ R') ∧
       closure elements 5 (fsm_heap (RegexFSM_init "a*b")) R = Ret R.
Proof.
  apply (closure_least_closed elements elements_order 5 "a*b" {[3]}).
  - simpl. lia.
  - intros x ->%elem_of_singleton. apply elem_of_allocated. simpl. lia.
Defined.

(** X10: one call of [closure] on states of a built automaton puts as many
    states on its stack as its result has members, hence at most one per
    state of the automaton, that is, at most two more than the pattern has
    characters. *)
Theorem closure_pushes_bounded
    (order : gset nat → list nat)
    (order_perm : ∀ X : gset nat, order X ≡ₚ elements X) (fuel : nat)
    (pattern : string) (states : gset nat) :
  2 + String.length pattern ≤ fuel →
  states ⊆ allocated (fsm_heap (RegexFSM_init pattern)) →
  ∃ cv, closure_run order fuel (fsm_heap (RegexFSM_init pattern)) states
        = Ret cv ∧
        length (pushed cv) = size (result cv) ∧
        length (pushed cv) ≤ 2 + String.length pattern.
Proof.
  intros Hfuel Hsub. set (h := fsm_heap (RegexFSM_init pattern)) in *.
  assert (heap_closed h) as Hc by apply init_chars_wf.
  assert (length h = 2 + String.length pattern) as Hlen
    by apply length_RegexFSM_init.
  destruct (closure_run_spec order order_perm fuel h states)
    as (cv & Hrun & Hinv & Hstk); [done|done|lia|].
  assert (pushed cv ≡ₚ elements (result cv)) as Hperm.
  { apply NoDup_Permutation; [apply Hinv|apply NoDup_elements|].
    intros x. rewrite elem_of_elements. apply Hinv. }
  assert (length (pushed cv) = size (result cv)) as Hsize by by rewrite Hperm.
  exists cv. split_and!; [done..|].
  rewrite Hsize, <-Hlen, <-size_allocated. apply subseteq_size.
  intros x Hx. apply elem_of_allocated.
  eapply eps_reach_allocated; [done..|]. by apply Hinv.
Qed.

Lemma closure_pushes_bounded_witness :
  ∃ cv, closure_run elements 5 (fsm_heap (RegexFSM_init "a*b")) {[0]}
        = Ret cv ∧
        length (pushed cv) = size (result cv) ∧
        length (pushed cv) ≤ 2 + String.length "a*b".
Proof.
  apply (closure_pushes_bounded elements elements_order 5 "a*b" {[0]}).
  - simpl. lia.
  - intros x ->%elem_of_singleton. apply elem_of_allocated. simpl. lia.
Defined.

(** ** The shape of the built automaton *)

Lemma entry_length term ts base : length (entry term ts base) ≤ 2.
Proof. destruct ts as [|[c []] ts]; simpl; lia. Qed.

Lemma layout_out_degree term ts base i st :
  layout term ts base !! i = Some st → length (next_states st) ≤ 2.
Proof.
  revert base i. induction ts as [|[c quant] ts IH]; intros base i; [done|].
  pose proof (entry_length term ts) as He.
  destruct quant; simpl.
  - destruct i as [|i]; simpl; [intros [= <-]; apply He|apply IH].
  - destruct i as [|[|i]]; simpl;
      [intros [= <-]; simpl; lia|intros [= <-]; apply He|apply IH].
  - destruct i as [|[|i]]; simpl;
      [intros [= <-]; simpl; lia|intros [= <-]; apply He|apply IH].
Qed.

Lemma init_chars_edge_forward pattern q n :
  edge (fsm_heap (init_chars pattern)) q n → q ≠ 1 ∧ (n = 1 ∨ q < n).
Proof.
  unfold edge, next_of.
  destruct (fsm_heap (init_chars pattern) !! q) as [st|] eqn:Hq;
    [|by intros ?%elem_of_nil].
  intros Hn.
  apply init_chars_lookup in Hq as [[-> ->]|[[-> ->]|(i & -> & Hi)]].
  - simpl in Hn. apply entry_bounds in Hn. lia.
  - by apply elem_of_nil in Hn.
  - apply layout_state in Hi as (H1 & _). destruct (H1 n Hn); lia.
Qed.

Lemma init_chars_path_forward pattern q n :
  tc (edge (fsm_heap (init_chars pattern))) q n → q ≠ 1 ∧ (n = 1 ∨ q < n).
Proof.
  induction 1 as [q n He|q m n He _ IH].
  - by apply (init_chars_edge_forward pattern).
  - apply (init_chars_edge_forward pattern) in He. lia.
Qed.

(** X11: the automaton of a pattern has exactly two states more than the
    pattern has characters; the start state is its only [StartState] and the
    termination state its only [TerminationState]. *)
Theorem init_state_count (pattern : string) :
  length (fsm_heap (RegexFSM_init pattern)) = 2 + String.length pattern ∧
  (∀ q st,
     fsm_heap (RegexFSM_init pattern) !! q = Some st →
     (kind st = StartState ↔ q = start_state (RegexFSM_init pattern)) ∧
     (kind st = TerminationState ↔ q = term_state (RegexFSM_init pattern))).
Proof.
  split; [apply length_RegexFSM_init|].
  intros q st Hq. unfold RegexFSM_init in *.
  assert (start_state (init_chars (list_ascii_of_string pattern)) = 0) as ->
    by by rewrite init_chars_layout.
  assert (term_state (init_chars (list_ascii_of_string pattern)) = 1) as ->
    by by rewrite init_chars_layout.
  apply init_chars_lookup in Hq as [[-> ->]|[[-> ->]|(i & -> & Hi)]].
  - done.
  - done.
  - apply layout_state in Hi as (_ & Hs & Ht & _). split; split; (done || lia).
Qed.

Lemma init_state_count_witness :
  (kind (mkState DotState [6] None) = StartState
   ↔ 5 = start_state (RegexFSM_init "a*4.+hi")) ∧
  (kind (mkState DotState [6] None) = TerminationState
   ↔ 5 = term_state (RegexFSM_init "a*4.+hi")).
Proof.
  apply (init_state_count "a*4.+hi"). reflexivity.
Defined.

(** X12: every transition of a built automaton leads to the termination
    state or to a state allocated later than its source, so that no path of
    transitions returns to the state it left (repetition is not a transition
    but the [loop_state] reference); and no state has more than two
    transitions. *)
Theorem init_transitions_forward (pattern : string) :
  (∀ q n, edge (fsm_heap (RegexFSM_init pattern)) q n →
          n = term_state (RegexFSM_init pattern) ∨ q < n) ∧
  (∀ q, ¬ tc (edge (fsm_heap (RegexFSM_init pattern))) q q) ∧
  (∀ q, length (next_of (fsm_heap (RegexFSM_init pattern)) q) ≤ 2).
Proof.
  unfold RegexFSM_init. set (p := list_ascii_of_string pattern).
  assert (term_state (init_chars p) = 1) as ->
    by by rewrite init_chars_layout.
  split_and!.
  - intros q n He. by apply init_chars_edge_forward in He as [_ ?].
  - intros q Hq. apply init_chars_path_forward in Hq. lia.
  - intros q. unfold next_of.
    destruct (fsm_heap (init_chars p) !! q) as [st|] eqn:Hq; [|simpl; lia].
    apply init_chars_lookup in Hq as [[-> ->]|[[-> ->]|(i & -> & Hi)]].
    + apply entry_length.
    + simpl. lia.
    + by eapply layout_out_degree.
Qed.

Lemma init_transitions_forward_witness :
  4 = term_state (RegexFSM_init "a*4.+hi") ∨ 3 < 4.
Proof.
  apply (init_transitions_forward "a*4.+hi"). unfold edge. vm_compute.
  apply list_elem_of_here.
Defined.

(** X13: the iterations that follow a point of the loop, and the final link
    to the termination state, allocate one state per remaining pattern
    character and change no state allocated before, except that they append
    transitions to the current [prev], whose class and [loop_state] they
    leave alone. *)
Theorem build_rest_frame (term : nat) (pattern : list ascii) (prev : nat)
    (h : heap) :
  prev < length h →
  length (build_rest term pattern prev h) = length h + length pattern ∧
  (∀ q, q < length h → q ≠ prev →
        build_rest term pattern prev h !! q = h !! q) ∧
  kind_of (build_rest term pattern prev h) prev = kind_of h prev ∧
  loop_of (build_rest term pattern prev h) prev = loop_of h prev ∧
  (∃ added, added ≠ [] ∧
            next_of (build_rest term pattern prev h) prev
            = next_of h prev ++ added).
Proof.
  intros Hprev. rewrite build_rest_layout by done. split_and!.
  - by rewrite length_app, length_alter, length_layout_tokenize.
  - intros q Hq Hne. by apply lookup_extended_old.
  - by apply kind_of_extended_prev.
  - by apply loop_of_extended_prev.
  - eexists. split; [|by apply next_of_extended_prev].
    by destruct (tokenize pattern) as [|[c []] ts].
Qed.

Lemma build_rest_frame_witness :
  length (build_rest 1 (list_ascii_of_string "b+")
            2 (fsm_heap (RegexFSM_init "a")))
  = length (fsm_heap (RegexFSM_init "a")) + length (list_ascii_of_string "b+").
Proof.
  apply (build_rest_frame 1 (list_ascii_of_string "b+") 2
           (fsm_heap (RegexFSM_init "a"))).
  simpl. lia.
Defined.

(** ** The number of loop iterations *)

Lemma length_tokenize_le pattern : length (tokenize pattern) ≤ length pattern.
Proof.
  pose proof (loop_view_all pattern) as Hv.
  induction Hv as [|c quant rest Hq _ IH|c rest Hno _ IH].
  - done.
  - simpl. rewrite Hq. simpl. lia.
  - rewrite tokenize_plain by done. simpl. lia.
Qed.

Lemma init_while_tokens fuel pattern i prev h :
  (length (tokenize (drop i pattern)) ≤ fuel →
   init_while fuel pattern i prev h
   = Some (init_loop (drop i pattern) prev h)) ∧
  (fuel < length (tokenize (drop i pattern)) →
   init_while fuel pattern i prev h = None).
Proof.
  revert i prev h. induction fuel as [|fuel IH]; intros i prev h.
  - simpl. case_decide as Hi.
    + destruct (pattern !! i) as [c|] eqn:Hc;
        [|apply lookup_ge_None in Hc; lia].
      rewrite (drop_S _ _ _ Hc).
      destruct (tokenize_head c (drop (S i) pattern)) as (q & ts & ->).
      simpl. split; [lia|done].
    + rewrite drop_ge by lia. simpl. split; [done|lia].
  - simpl. case_decide as Hi;
      [|rewrite drop_ge by lia; simpl; split; [done|lia]].
    destruct (pattern !! i) as [c|] eqn:Hc;
      [|apply lookup_ge_None in Hc; lia].
    rewrite (drop_S _ _ _ Hc).
    destruct (pattern !! (i + 1)) as [quant|] eqn:Hquant.
    + replace (i + 1) with (S i) in * by lia.
      rewrite (drop_S _ _ _ Hquant). simpl.
      destruct (is_quantifier quant).
      * destruct (quantified_atom c quant prev h) as [prev' h'].
        replace (i + 2) with (S (S i)) by lia.
        destruct (IH (S (S i)) prev' h') as [IH1 IH2]. simpl.
        split; intros; [apply IH1|apply IH2]; lia.
      * destruct (plain_atom c prev h) as [prev' h'].
        destruct (IH (S i) prev' h') as [IH1 IH2].
        rewrite (drop_S _ _ _ Hquant) in IH1, IH2. simpl in *.
        split; intros; [apply IH1|apply IH2]; lia.
    + replace (i + 1) with (S i) in * by lia.
      apply lookup_ge_None in Hquant.
      rewrite (drop_ge _ (S i)) by lia. simpl.
      destruct (plain_atom c prev h) as [prev' h'].
      destruct (IH (S i) prev' h') as [IH1 IH2].
      rewrite drop_ge in IH1, IH2 by lia. simpl in *.
      split; intros; [apply IH1|apply IH2]; lia.
Qed.

(** X14: the [while] loop over the index makes exactly one iteration per
    atom of the pattern, that is at most one per character, reads no index
    outside the pattern, and builds the arena of the recursion over the
    unread suffix: it ends within a bound on its iterations exactly when the
    bound is at least the number of atoms. *)
Theorem init_while_iterations (fuel : nat) (pattern : list ascii) (prev : nat)
    (h : heap) :
  (length (tokenize pattern) ≤ fuel →
   init_while fuel pattern 0 prev h = Some (init_loop pattern prev h)) ∧
  (fuel < length (tokenize pattern) →
   init_while fuel pattern 0 prev h = None) ∧
  length (tokenize pattern) ≤ length pattern.
Proof.
  destruct (init_while_tokens fuel pattern 0 prev h) as [H1 H2].
  rewrite drop_0 in H1, H2. split_and!; [done..|apply length_tokenize_le].
Qed.

Lemma init_while_iterations_witness :
  init_while 5 (list_ascii_of_string "a*4.+hi") 0 0
    [mkState StartState [] None; mkState TerminationState [] None]
  = Some (init_loop (list_ascii_of_string "a*4.+hi") 0
            [mkState StartState [] None; mkState TerminationState [] None]) ∧
  init_while 4 (list_ascii_of_string "a*4.+hi") 0 0
    [mkState StartState [] None; mkState TerminationState [] None]
  = None.
Proof.
  split.
  - apply (init_while_iterations 5 (list_ascii_of_string "a*4.+hi")).
    simpl. lia.
  - apply (init_while_iterations 4 (list_ascii_of_string "a*4.+hi")).
    simpl. lia.
Defined.

(** ** A quantifier state without [loop_state] *)

Lemma step_state_raises h ch acc q st :
  h !! q = Some st → kind st = StarState ∨ kind st = PlusState →
  loop_state st = None →
  step_state h ch acc q = AttributeError.
Proof.
  intros Hq Hk Hloop. unfold step_state, loop_check. rewrite Hq, Hloop.
  unfold check_self. by destruct Hk as [-> | ->].
Qed.

Lemma step_state_bounded h ch acc q : step_state h ch acc q ≠ OutOfFuel.
Proof.
  unfold step_state, loop_check. destruct (h !! q) as [st|]; [|done].
  destruct (check_self st ch), (loop_state st);
    repeat case_bool_decide; simpl; try done;
    by destruct (check_self_at h _ ch).
Qed.

Lemma for_each_step_state_raises h ch l acc q st :
  h !! q = Some st → kind st = StarState ∨ kind st = PlusState →
  loop_state st = None → q ∈ l →
  for_each (step_state h ch) l acc = AttributeError.
Proof.
  intros Hq Hk Hloop Hin. revert acc.
  induction l as [|x l IH]; intros acc; [by apply elem_of_nil in Hin|].
  simpl. destruct (step_state h ch acc x) as [acc'| |] eqn:Hx; simpl.
  - apply IH. apply elem_of_cons in Hin as [Heq|Hin]; [|done]. subst x.
    by rewrite (step_state_raises h ch acc q st) in Hx.
  - done.
  - by apply step_state_bounded in Hx.
Qed.

Lemma check_chars_nil_no_error order fuel fsm :
  check_chars order fuel fsm [] ≠ AttributeError.
Proof.
  unfold check_chars. simpl.
  destruct (closure order fuel _ {[_]}) as [R0| |] eqn:E0; simpl; try done;
    [|by apply closure_no_error in E0].
  match goal with
  | |- context [closure order fuel ?h ?A] =>
      destruct (closure order fuel h A) as [R2| |] eqn:E2
  end; simpl; try done.
  by apply closure_no_error in E2.
Qed.

(** X15: when a [StarState] or [PlusState] whose [loop_state] is still
    [None] is among the states that [closure] reaches from the start state,
    [check_string] raises [AttributeError] on every non-empty input, at its
    first character; on the empty input it never raises, whatever the
    automaton is. *)
Theorem unassigned_loop_state_raises
    (order : gset nat → list nat)
    (order_perm : ∀ X : gset nat, order X ≡ₚ elements X) (fuel : nat)
    (fsm : RegexFSM) (R : gset nat) (q : nat) (st : State)
    (ch : ascii) (s : string) :
  closure order fuel (fsm_heap fsm) {[start_state fsm]} = Ret R →
  q ∈ R → q ≠ start_state fsm →
  fsm_heap fsm !! q = Some st →
  kind st = StarState ∨ kind st = PlusState →
  loop_state st = None →
  check_string order fuel fsm (String ch s) = AttributeError ∧
  check_string order fuel fsm "" ≠ AttributeError.
Proof.
  intros HR Hq Hne Hst Hk Hloop. split; [|apply check_chars_nil_no_error].
  unfold check_string, check_chars. simpl. rewrite HR. simpl.
  set (active := if decide (start_state fsm ∈ R) then _ else _).
  assert (q ∈ active) as Hin by (subst active; case_decide; set_solver).
  assert (step order fuel (fsm_heap fsm) active ch = AttributeError) as ->;
    [|done].
  unfold step.
  rewrite (for_each_step_state_raises (fsm_heap fsm) ch (order active) ∅ q st);
    [done..|].
  by apply elem_of_order.
Qed.

Lemma unassigned_loop_state_raises_witness :
  check_string elements 3
    (mkRegexFSM [mkState StartState [2] None; mkState TerminationState [] None;
                 mkState StarState [1] None] 0 1) "a" = AttributeError ∧
  check_string elements 3
    (mkRegexFSM [mkState StartState [2] None; mkState TerminationState [] None;
                 mkState StarState [1] None] 0 1) "" ≠ AttributeError.
Proof.
  apply (unassigned_loop_state_raises elements elements_order 3
           (mkRegexFSM [mkState StartState [2] None;
                        mkState TerminationState [] None;
                        mkState StarState [1] None] 0 1)
           (list_to_set [0; 1; 2]) 2 (mkState StarState [1] None)).
  - vm_compute. reflexivity.
  - vm_compute. reflexivity.
  - simpl. lia.
  - reflexivity.
  - left. reflexivity.
  - reflexivity.
Defined.

(** ** Automata that were not built from a pattern *)

(** X16: on every automaton whose start state is a [StartState], whose
    termination state is a [TerminationState], whose transitions lead to
    allocated states and whose quantifier states have their [loop_state]
    assigned, [check_string] returns a boolean, true exactly when the input
    drives the automaton from the start state to the termination state. *)
Theorem check_string_any_automaton
    (order : gset nat → list nat)
    (order_perm : ∀ X : gset nat, order X ≡ₚ elements X) (fuel : nat)
    (fsm : RegexFSM) (s : string) :
  fsm_wf fsm →
  length (fsm_heap fsm) ≤ fuel →
  ∃ b, check_string order fuel fsm s = Ret b ∧
       (b = true ↔ accepts fsm (list_ascii_of_string s)).
Proof. intros Hwf Hfuel. by apply check_chars_spec. Qed.

Lemma check_string_any_automaton_witness :
  ∃ b, check_string elements 5 (RegexFSM_init "a*b") "ab" = Ret b ∧
       (b = true ↔ accepts (RegexFSM_init "a*b") (list_ascii_of_string "ab")).
Proof.
  apply (check_string_any_automaton elements elements_order 5
           (RegexFSM_init "a*b") "ab").
  - apply init_chars_wf.
  - simpl. lia.
Defined.
